(** * Collaborative canvas: the operation log, the room registry and the
      broadcast router

    A shallow embedding of [server/drawing-state.js], [server/rooms.js] and
    the server's entry module (the one that creates the WebSocket server
    and requires [./drawing-state]), with the properties of the
    synchronisation core stated and proved over it.

    Conventions of the embedding.
    - JavaScript numbers that the code only counts with or compares (ids,
      timestamps, the size cap, array lengths) are mathematical integers
      [Z]; the counters stay far below 2^53 where the two agree.
    - An object literal is a finite map from property names to values.
    - Objects have identity.  Every evaluation of an object literal
      allocates a new object; the allocator is threaded explicitly as a
      [Heap], and an operation record carries the address it was allocated
      at next to its properties.
    - [Date.now()] is an input of the call that reads it. *)

From stdpp Require Import gmap strings list fin_maps pretty sorting.

Local Open Scope Z_scope.

(** ** JavaScript values and built-ins used by the server *)

Module Js.

(** Values a property can hold.  [VRef] is a reference to an object or
    array that the synchronisation core passes around without reading
    (a draw payload, for instance). *)
Inductive value : Type :=
  | VUndefined
  | VNull
  | VBool (b : bool)
  | VNum (n : Z)
  | VStr (s : string)
  | VRef (a : nat).

#[global] Instance value_eq_dec : EqDecision value.
Proof. solve_decision. Defined.

(** The relational operator [>] on values.  Its result on two numbers is
    their order; on other operands it goes through [ToPrimitive] and
    [ToNumber], which the embedding does not fix. *)
Class Relational : Type := {
  js_gt : value → value → bool;
  js_gt_num : ∀ a b : Z, js_gt (VNum a) (VNum b) = bool_decide (b < a);
}.

(** [o.k]: the value of an own property, [undefined] when absent. *)
Definition prop (o : gmap string value) (k : string) : value :=
  default VUndefined (o !! k).

(** [Array.prototype.pop]: [None] stands for the [undefined] that [pop]
    returns on an empty array (which it leaves empty); otherwise the array
    without its last element, and that element. *)
Fixpoint pop {A : Type} (l : list A) : option (list A * A) :=
  match l with
  | [] => None
  | x :: l' =>
      match pop l' with
      | None => Some ([], x)
      | Some (rest, y) => Some (x :: rest, y)
      end
  end.

(** [Array.prototype.slice(start)] for an integer [start]: a negative start
    counts from the end, clamped at 0; a non-negative one (and [-0] is 0)
    counts from the front, clamped at the length. *)
Definition slice {A : Type} (start : Z) (l : list A) : list A :=
  let len := Z.of_nat (length l) in
  let k := if start <? 0 then Z.max (len + start) 0 else Z.min start len in
  drop (Z.to_nat k) l.

End Js.

Import Js.

(** ** The heap allocator *)

Record Heap : Type := { next_addr : nat }.

(** Allocate one object: its address, and the heap afterwards. *)
Definition alloc (h : Heap) : nat * Heap :=
  (next_addr h, {| next_addr := S (next_addr h) |}).

(** ** drawing-state.js *)

Module DrawingState.

(** An operation record: the object built by [addOperation]. *)
Record Op : Type := {
  op_addr : nat;
  op_props : gmap string value;
}.

#[global] Instance Op_eq_dec : EqDecision Op.
Proof. solve_decision. Defined.

Definition op_id (op : Op) : value := prop (op_props op) "id".
Definition op_timestamp (op : Op) : value := prop (op_props op) "timestamp".

Record t : Type := {
  operations : list Op;
  redoStack : list Op;
  maxOperations : Z;
  operationIdCounter : Z;
}.

(** [constructor(maxOperations = 500)]; [None] is an omitted argument. *)
Definition constructor (maxOperations : option Z) : t :=
  {| operations := [];
     redoStack := [];
     maxOperations := default 500 maxOperations;
     operationIdCounter := 0 |}.

(** [{ id: ++this.operationIdCounter, timestamp: Date.now(), ...operation }]:
    the two assigned properties are written first and the payload's own
    properties are copied over them. *)
Definition op_literal (counter now : Z) (operation : gmap string value)
  : gmap string value :=
  operation ∪ <["timestamp" := VNum now]> (<["id" := VNum counter]> ∅).

(** The array left in [this.operations] after the push:
    [if (length > maxOperations) operations = operations.slice(-maxOperations)]. *)
Definition kept (maxOperations : Z) (pushed : list Op) : list Op :=
  if Z.of_nat (length pushed) >? maxOperations
  then slice (- maxOperations) pushed
  else pushed.

Definition addOperation (now : Z) (operation : gmap string value)
    (h : Heap) (s : t) : Op * Heap * t :=
  let counter := operationIdCounter s + 1 in
  let '(a, h') := alloc h in
  let op := {| op_addr := a; op_props := op_literal counter now operation |} in
  let pushed := operations s ++ [op] in
  (op, h',
   {| operations := kept (maxOperations s) pushed;
      redoStack := [];
      maxOperations := maxOperations s;
      operationIdCounter := counter |}).

(** Results of [undo] and [redo]: [{success: false, message}] or
    [{success: true, operations}]. *)
Inductive Result : Type :=
  | Failure (message : string)
  | Success (ops : list Op).

(** The guard [this.operations.length === 0] and the [pop] that follows it
    are one case analysis: [pop] gives [None] exactly on the empty array
    ([pop_length_0]). *)
Definition undo (s : t) : Result * t :=
  match pop (operations s) with
  | None => (Failure "Nothing to undo", s)
  | Some (rest, lastOp) =>
      let s' := {| operations := rest;
                   redoStack := redoStack s ++ [lastOp];
                   maxOperations := maxOperations s;
                   operationIdCounter := operationIdCounter s |} in
      (Success (operations s'), s')
  end.

Definition redo (s : t) : Result * t :=
  match pop (redoStack s) with
  | None => (Failure "Nothing to redo", s)
  | Some (rest, op) =>
      let s' := {| operations := operations s ++ [op];
                   redoStack := rest;
                   maxOperations := maxOperations s;
                   operationIdCounter := operationIdCounter s |} in
      (Success (operations s'), s')
  end.

Definition clear (s : t) : t :=
  {| operations := [];
     redoStack := [];
     maxOperations := maxOperations s;
     operationIdCounter := operationIdCounter s |}.

Definition getAllOperations (s : t) : list Op := operations s.

Definition getOperationsSince `{rel : !Relational} (sinceId : value) (s : t)
  : list Op :=
  filter (λ op, js_gt (op_id op) sinceId) (operations s).

Record Snapshot : Type := {
  snap_operations : list Op;
  operationCount : nat;
  canUndo : bool;
  canRedo : bool;
  lastOperationId : value;
}.

Definition getSnapshot (s : t) : Snapshot :=
  {| snap_operations := getAllOperations s;
     operationCount := length (operations s);
     canUndo := bool_decide (0 < length (operations s))%nat;
     canRedo := bool_decide (0 < length (redoStack s))%nat;
     lastOperationId :=
       match last (operations s) with
       | Some op => op_id op
       | None => VNull
       end |}.

Definition is_failure (r : Result) : bool :=
  match r with Failure _ => true | Success _ => false end.

(** Calls that change a log, and states reached by them from a new log. *)
Inductive Call : Type :=
  | AddOperation (now : Z) (operation : gmap string value)
  | CallUndo
  | CallRedo
  | CallClear.

Definition run (c : Call) (st : Heap * t) : Heap * t :=
  match c with
  | AddOperation now operation =>
      let '(_, h', s') := addOperation now operation st.1 st.2 in (h', s')
  | CallUndo => (st.1, (undo st.2).2)
  | CallRedo => (st.1, (redo st.2).2)
  | CallClear => (st.1, clear st.2)
  end.

Inductive reachable : Heap * t → Prop :=
  | reachable_new h cap : reachable (h, constructor cap)
  | reachable_run c st : reachable st → reachable (run c st).

(** A run of [addOperation] calls, one per [(now, operation)], collecting
    the records they return. *)
Fixpoint addOperations (calls : list (Z * gmap string value))
    (h : Heap) (s : t) : list Op * Heap * t :=
  match calls with
  | [] => ([], h, s)
  | (now, operation) :: calls' =>
      let '(op, h1, s1) := addOperation now operation h s in
      let '(ops, h2, s2) := addOperations calls' h1 s1 in
      (op :: ops, h2, s2)
  end.

(** The live records in the order they were created: the entries, then
    the undone ones from the most recently undone back. *)
Definition timeline (s : t) : list Op := operations s ++ reverse (redoStack s).

(** An invariant shape for the timeline: it is ordered by [R], and every
    record on it satisfies [B] in the current state. *)
Definition timeline_sorted (R : relation Op) (B : Heap * t → Op → Prop)
    (st : Heap * t) : Prop :=
  StronglySorted R (timeline st.2) ∧ Forall (B st) (timeline st.2).

(** Allocation order, and being allocated already. *)
Definition addr_lt (a b : Op) : Prop := (op_addr a < op_addr b)%nat.

Definition allocated (st : Heap * t) (op : Op) : Prop :=
  (op_addr op < next_addr st.1)%nat.

(** A payload without an own [id] property. *)
Definition plain (c : Call) : Prop :=
  match c with
  | AddOperation _ operation => operation !! "id" = None
  | _ => True
  end.

Inductive reachable_plain : Heap * t → Prop :=
  | reachable_plain_new h cap : reachable_plain (h, constructor cap)
  | reachable_plain_run c st :
      plain c → reachable_plain st → reachable_plain (run c st).

Definition numeric_id (op : Op) : Prop :=
  match op_id op with VNum _ => True | _ => False end.

Definition id_lt (a b : Op) : Prop :=
  match op_id a, op_id b with
  | VNum x, VNum y => x < y
  | _, _ => False
  end.

Definition id_le_num (n : Z) (op : Op) : Prop :=
  match op_id op with VNum x => x ≤ n | _ => False end.

(** The records carry numeric ids in strictly increasing order. *)
Definition ids_ascending (l : list Op) : Prop :=
  Forall numeric_id l ∧ StronglySorted id_lt l.

(** The record has a numeric id that the counter has reached. *)
Definition id_assigned (st : Heap * t) (op : Op) : Prop :=
  id_le_num (operationIdCounter st.2) op.

(** An instance of [>] that orders numbers and answers [false] on every
    other pair of operands; it serves to run the log on numeric ids. *)
#[export] Instance numeric_gt : Relational := {|
  js_gt a b :=
    match a, b with
    | VNum x, VNum y => bool_decide (y < x)
    | _, _ => false
    end;
  js_gt_num a b := eq_refl;
|}.

(** [k] calls of [undo], and [k] calls of [redo], one after the other. *)
Definition undos (k : nat) (s : t) : t := Nat.iter k (λ s', (undo s').2) s.

Definition redos (k : nat) (s : t) : t := Nat.iter k (λ s', (redo s').2) s.

End DrawingState.

(** ** [Map]: insertion-ordered association *)

Module JsMap.

Section defs.
Context {K V : Type} `{EqDecision K}.

Fixpoint get (k : K) (m : list (K * V)) : option V :=
  match m with
  | [] => None
  | (k', v) :: m' => if decide (k = k') then Some v else get k m'
  end.

Definition has (k : K) (m : list (K * V)) : bool :=
  bool_decide (is_Some (get k m)).

(** [set] keeps the position of a key that is present and appends a new
    one, which is the order [forEach], [keys] and [values] visit. *)
Fixpoint set (k : K) (v : V) (m : list (K * V)) : list (K * V) :=
  match m with
  | [] => [(k, v)]
  | (k', v') :: m' =>
      if decide (k = k') then (k, v) :: m' else (k', v') :: set k v m'
  end.

Definition delete (k : K) (m : list (K * V)) : list (K * V) :=
  filter (λ kv, kv.1 ≠ k) m.

Definition size (m : list (K * V)) : nat := length m.

Definition keys (m : list (K * V)) : list K := m.*1.

Definition values (m : list (K * V)) : list V := m.*2.

End defs.

End JsMap.

(** ** Transports and outbound effects *)

(** A WebSocket as the server sees it: which socket, and its
    [readyState] (1 is [WebSocket.OPEN]). *)
Record WebSocket : Type := {
  ws_id : nat;
  readyState : Z;
}.

Definition OPEN : Z := 1.

(** What a broadcast does to the outside: a call of [JSON.stringify] and
    a [ws.send] of a string on a socket, in program order. *)
Inductive Effect (M : Type) : Type :=
  | Stringify (m : M)
  | Send (ws : nat) (data : string).

Arguments Stringify {M} m.
Arguments Send {M} ws data.

(** ** rooms.js *)

Module RoomManager.

(** The [userInfo] argument of [addUserToRoom]: its [ws] property, if it
    has one that is an object, and its other properties. *)
Record UserInfo : Type := {
  ui_ws : option WebSocket;
  ui_props : gmap string value;
}.

(** [{ ...userInfo, joinedAt: Date.now() }] *)
Definition user_literal (userInfo : UserInfo) (now : Z) : UserInfo :=
  {| ui_ws := ui_ws userInfo;
     ui_props := <["joinedAt" := VNum now]> (ui_props userInfo) |}.

Record Room : Type := {
  id : string;
  users : list (string * UserInfo);
  drawingState : DrawingState.t;
  createdAt : Z;
}.

Record t : Type := {
  rooms : list (string * Room);
  defaultRoomId : string;
}.

Definition with_rooms (m : t) (rs : list (string * Room)) : t :=
  {| rooms := rs; defaultRoomId := defaultRoomId m |}.

Definition with_users (room : Room) (us : list (string * UserInfo)) : Room :=
  {| id := id room;
     users := us;
     drawingState := drawingState room;
     createdAt := createdAt room |}.

Definition createRoom (now : Z) (roomId : string) (m : t) : Room * t :=
  match JsMap.get roomId (rooms m) with
  | Some room => (room, m)
  | None =>
      let room := {| id := roomId;
                     users := [];
                     drawingState := DrawingState.constructor None;
                     createdAt := now |} in
      (room, with_rooms m (JsMap.set roomId room (rooms m)))
  end.

Definition constructor (now : Z) : t :=
  snd (createRoom now "default" {| rooms := []; defaultRoomId := "default" |}).

Definition getRoom (roomId : string) (m : t) : option Room :=
  JsMap.get roomId (rooms m).

Definition getOrCreateRoom (now : Z) (roomId : string) (m : t) : Room * t :=
  match getRoom roomId m with
  | Some room => (room, m)
  | None => createRoom now roomId m
  end.

(** [room.users.set] updates the room object that the registry holds under
    [roomId]; [nowRoom] is the clock read by [createRoom] if it runs,
    [nowJoin] the one read for [joinedAt]. *)
Definition addUserToRoom (nowRoom nowJoin : Z) (roomId userId : string)
    (userInfo : UserInfo) (m : t) : t :=
  let '(room, m1) := getOrCreateRoom nowRoom roomId m in
  let room' :=
    with_users room
      (JsMap.set userId (user_literal userInfo nowJoin) (users room)) in
  with_rooms m1 (JsMap.set roomId room' (rooms m1)).

Definition deleteRoom (roomId : string) (m : t) : t :=
  if decide (roomId ≠ defaultRoomId m)
  then with_rooms m (JsMap.delete roomId (rooms m))
  else m.

Definition removeUserFromRoom (roomId userId : string) (m : t) : t :=
  match getRoom roomId m with
  | Some room =>
      let room' := with_users room (JsMap.delete userId (users room)) in
      let m1 := with_rooms m (JsMap.set roomId room' (rooms m)) in
      if decide (JsMap.size (users room') = 0%nat ∧ roomId ≠ defaultRoomId m)
      then deleteRoom roomId m1
      else m1
  | None => m
  end.

Definition getRoomUsers (roomId : string) (m : t) : list UserInfo :=
  match getRoom roomId m with
  | Some room => JsMap.values (users room)
  | None => []
  end.

Record Stats : Type := {
  stats_id : string;
  userCount : nat;
  stats_operationCount : nat;
  stats_createdAt : Z;
}.

Definition getRoomStats (roomId : string) (m : t) : option Stats :=
  match getRoom roomId m with
  | None => None
  | Some room =>
      Some {| stats_id := id room;
              userCount := JsMap.size (users room);
              stats_operationCount :=
                length (DrawingState.operations (drawingState room));
              stats_createdAt := createdAt room |}
  end.

Definition getAllRoomIds (m : t) : list string := JsMap.keys (rooms m).

(** One turn of the [forEach] callback:
    [if (userId !== excludeUserId && user.ws && user.ws.readyState === 1)
       user.ws.send(messageStr)];
    [None] is the default [excludeUserId = null], which no key equals. *)
Definition deliver {M : Type} (messageStr : string)
    (excludeUserId : option string) (entry : string * UserInfo)
  : list (Effect M) :=
  match ui_ws entry.2 with
  | Some ws =>
      if bool_decide (Some entry.1 ≠ excludeUserId)
         && bool_decide (readyState ws = 1)
      then [Send (ws_id ws) messageStr]
      else []
  | None => []
  end.

Definition broadcastToRoom {M : Type} (stringify : M → string)
    (roomId : string) (message : M) (excludeUserId : option string)
    (m : t) : list (Effect M) :=
  match getRoom roomId m with
  | None => []
  | Some room =>
      let messageStr := stringify message in
      Stringify message ::
      flat_map (deliver messageStr excludeUserId) (users room)
  end.

(** The recipients of a broadcast in the words of the specification: the
    users of the room whose transport is open, without the excluded
    session. *)
Definition open_transport (user : UserInfo) : option WebSocket :=
  match ui_ws user with
  | Some sock => if decide (readyState sock = 1) then Some sock else None
  | None => None
  end.

Definition recipients (excludeUserId : option string)
    (us : list (string * UserInfo)) : list WebSocket :=
  omap (λ entry,
          if decide (Some entry.1 = excludeUserId) then None
          else open_transport entry.2)
       us.

(** Calls that change the registry, for stating what holds after any
    sequence of them.  [LogCall] is a client of the registry changing the
    log of a room it obtained from [getRoom]. *)
Inductive Call : Type :=
  | CreateRoom (now : Z) (roomId : string)
  | GetOrCreateRoom (now : Z) (roomId : string)
  | AddUserToRoom (nowRoom nowJoin : Z) (roomId userId : string)
      (userInfo : UserInfo)
  | RemoveUserFromRoom (roomId userId : string)
  | DeleteRoom (roomId : string)
  | LogCall (roomId : string) (f : DrawingState.t → DrawingState.t).

Definition run (c : Call) (m : t) : t :=
  match c with
  | CreateRoom now roomId => snd (createRoom now roomId m)
  | GetOrCreateRoom now roomId => snd (getOrCreateRoom now roomId m)
  | AddUserToRoom nowRoom nowJoin roomId userId userInfo =>
      addUserToRoom nowRoom nowJoin roomId userId userInfo m
  | RemoveUserFromRoom roomId userId => removeUserFromRoom roomId userId m
  | DeleteRoom roomId => deleteRoom roomId m
  | LogCall roomId f =>
      match getRoom roomId m with
      | Some room =>
          let room' := {| id := id room;
                          users := users room;
                          drawingState := f (drawingState room);
                          createdAt := createdAt room |} in
          with_rooms m (JsMap.set roomId room' (rooms m))
      | None => m
      end
  end.

Inductive reachable : t → Prop :=
  | reachable_new now : reachable (constructor now)
  | reachable_run c m : reachable m → reachable (run c m).

(** The room a call is about. *)
Definition target (c : Call) : string :=
  match c with
  | CreateRoom _ roomId
  | GetOrCreateRoom _ roomId
  | AddUserToRoom _ _ roomId _ _
  | RemoveUserFromRoom roomId _
  | DeleteRoom roomId
  | LogCall roomId _ => roomId
  end.

(** What a [Map] keyed by ids gives for free, and what the registry adds:
    no room id is listed twice, every room is registered under its own
    [id], and no user id is listed twice in a room. *)
Definition well_formed (m : t) : Prop :=
  NoDup (JsMap.keys (rooms m)) ∧
  ∀ k room, (k, room) ∈ rooms m →
            id room = k ∧ NoDup (JsMap.keys (users room)).

End RoomManager.

(** ** The entry module: sessions, broadcast and the connection handler *)

Module Server.

Record User : Type := {
  id : string;
  username : string;
  color : string;
  ws : WebSocket;
}.

(** An element of the [users] array of a roster: [{id, username, color}]. *)
Record RosterEntry : Type := {
  r_id : string;
  r_username : string;
  r_color : string;
}.

(** The object literals the server serialises, by their [type]. *)
Inductive Message : Type :=
  | UserJoined (userId color username : string) (roster : list RosterEntry)
  | UserLeft (userId : string) (roster : list RosterEntry)
  | StateSync (ops : list DrawingState.Op)
  | Draw (userId : string) (data : value)
  | Cursor (userId : string) (x y : value)
  | Undo (ops : list DrawingState.Op)
  | Redo (ops : list DrawingState.Op)
  | Clear.

(** The module-level state: [drawingState], [users], [userIdCounter],
    [colorIndex], and the allocator. *)
Record t : Type := {
  drawingState : DrawingState.t;
  users : list (string * User);
  userIdCounter : Z;
  colorIndex : Z;
  heap : Heap;
}.

Definition init (h : Heap) : t :=
  {| drawingState := DrawingState.constructor None;
     users := [];
     userIdCounter := 0;
     colorIndex := 0;
     heap := h |}.

Definition userColors : list string :=
  [ "#e74c3c"; "#3498db"; "#2ecc71"; "#f39c12"; "#9b59b6";
    "#1abc9c"; "#e67e22"; "#34495e"; "#16a085"; "#c0392b";
    "#d35400"; "#8e44ad"; "#2980b9"; "#27ae60"; "#f1c40f" ]%string.

Definition assignUserColor (s : t) : string * t :=
  let color :=
    nth (Z.to_nat (colorIndex s `mod` Z.of_nat (length userColors)))
      userColors EmptyString in
  (color,
   {| drawingState := drawingState s;
      users := users s;
      userIdCounter := userIdCounter s;
      colorIndex := colorIndex s + 1;
      heap := heap s |}).

Definition adjectives : list string :=
  [ "Happy"; "Creative"; "Artistic"; "Bright";
    "Cool"; "Swift"; "Bold"; "Clever" ]%string.

Definition nouns : list string :=
  [ "Artist"; "Painter"; "Creator"; "Designer";
    "Drawer"; "Maker"; "Crafter"; "Builder" ]%string.

(** [i], [j] and [k] are the three values [Math.floor(Math.random() * n)]:
    below 8, below 8 and below 100. *)
Definition generateUsername (i j k : nat) : string :=
  (nth i adjectives EmptyString +:+ nth j nouns EmptyString +:+ pretty k)%string.

Definition roster (us : list (string * User)) : list RosterEntry :=
  (λ u, {| r_id := id u; r_username := username u; r_color := color u |})
    <$> JsMap.values us.

(** One turn of the [forEach] callback of [broadcast]:
    [if (userId !== excludeUserId && user.ws.readyState === WebSocket.OPEN)
       user.ws.send(messageStr)]. *)
Definition deliver (messageStr : string) (excludeUserId : option string)
    (entry : string * User) : list (Effect Message) :=
  if bool_decide (Some entry.1 ≠ excludeUserId)
     && bool_decide (readyState (ws entry.2) = OPEN)
  then [Send (ws_id (ws entry.2)) messageStr]
  else [].

Definition broadcast (stringify : Message → string) (message : Message)
    (excludeUserId : option string) (s : t) : list (Effect Message) :=
  let messageStr := stringify message in
  Stringify message :: flat_map (deliver messageStr excludeUserId) (users s).

Definition sendToUser (stringify : Message → string) (userId : string)
    (message : Message) (s : t) : list (Effect Message) :=
  match JsMap.get userId (users s) with
  | Some user =>
      if bool_decide (readyState (ws user) = OPEN)
      then [Stringify message; Send (ws_id (ws user)) (stringify message)]
      else []
  | None => []
  end.

Definition with_drawingState (s : t) (h : Heap) (d : DrawingState.t) : t :=
  {| drawingState := d;
     users := users s;
     userIdCounter := userIdCounter s;
     colorIndex := colorIndex s;
     heap := h |}.

Definition with_users (s : t) (us : list (string * User)) : t :=
  {| drawingState := drawingState s;
     users := us;
     userIdCounter := userIdCounter s;
     colorIndex := colorIndex s;
     heap := heap s |}.

(** The payload [{ type: "draw", userId: userId, data: drawData }]. *)
Definition draw_payload (userId : string) (drawData : value)
  : gmap string value :=
  <["type" := VStr "draw"]>
    (<["userId" := VStr userId]> (<["data" := drawData]> ∅)).

Definition handleDraw (stringify : Message → string) (now : Z)
    (userId : string) (drawData : value) (s : t)
  : list (Effect Message) * t :=
  let '(operation, h', d') :=
    DrawingState.addOperation now (draw_payload userId drawData)
      (heap s) (drawingState s) in
  let s' := with_drawingState s h' d' in
  (broadcast stringify (Draw userId drawData) None s', s').

Definition handleCursor (stringify : Message → string)
    (userId : string) (data : gmap string value) (s : t)
  : list (Effect Message) * t :=
  (broadcast stringify (Cursor userId (prop data "x") (prop data "y"))
     (Some userId) s, s).

Definition handleUndo (stringify : Message → string) (s : t)
  : list (Effect Message) * t :=
  let '(result, d') := DrawingState.undo (drawingState s) in
  let s' := with_drawingState s (heap s) d' in
  match result with
  | DrawingState.Success ops => (broadcast stringify (Undo ops) None s', s')
  | DrawingState.Failure _ => ([], s')
  end.

Definition handleRedo (stringify : Message → string) (s : t)
  : list (Effect Message) * t :=
  let '(result, d') := DrawingState.redo (drawingState s) in
  let s' := with_drawingState s (heap s) d' in
  match result with
  | DrawingState.Success ops => (broadcast stringify (Redo ops) None s', s')
  | DrawingState.Failure _ => ([], s')
  end.

Definition handleClear (stringify : Message → string) (s : t)
  : list (Effect Message) * t :=
  let s' := with_drawingState s (heap s) (DrawingState.clear (drawingState s)) in
  (broadcast stringify Clear None s', s').

(** [ws.on("message", ...)] for the connection of [userId].  [parsed] is
    the outcome of [JSON.parse(message)]: [None] when it throws or yields
    [null] (reading [data.type] then throws, and the [catch] logs it),
    otherwise the own properties of the parsed value.  [now] is the clock
    [handleDraw] would read. *)
Definition on_message (stringify : Message → string) (now : Z)
    (userId : string) (parsed : option (gmap string value)) (s : t)
  : list (Effect Message) * t :=
  match parsed with
  | None => ([], s)
  | Some data =>
      match prop data "type" with
      | VStr "draw" => handleDraw stringify now userId (prop data "data") s
      | VStr "cursor" => handleCursor stringify userId data s
      | VStr "undo" => handleUndo stringify s
      | VStr "redo" => handleRedo stringify s
      | VStr "clear" => handleClear stringify s
      | _ => ([], s)
      end
  end.

(** [wss.on("connection", ...)]: [sock] is the new socket, [i j k] the
    random draws of [generateUsername]. *)
Definition on_connection (stringify : Message → string)
    (sock : WebSocket) (i j k : nat) (s : t)
  : list (Effect Message) * t :=
  let counter := userIdCounter s + 1 in
  let userId := ("user_" +:+ pretty counter)%string in
  let '(c, s1) := assignUserColor s in
  let name := generateUsername i j k in
  let user := {| id := userId; username := name; color := c; ws := sock |} in
  let s2 :=
    {| drawingState := drawingState s1;
       users := JsMap.set userId user (users s1);
       userIdCounter := counter;
       colorIndex := colorIndex s1;
       heap := heap s1 |} in
  let joined := UserJoined userId c name (roster (users s2)) in
  let operations := DrawingState.getAllOperations (drawingState s2) in
  (sendToUser stringify userId joined s2
     ++ (if bool_decide (0 < length operations)%nat
         then sendToUser stringify userId (StateSync operations) s2
         else [])
     ++ broadcast stringify joined (Some userId) s2,
   s2).

(** [ws.on("close", ...)] for the connection of [userId]. *)
Definition on_close (stringify : Message → string) (userId : string) (s : t)
  : list (Effect Message) * t :=
  let s' := with_users s (JsMap.delete userId (users s)) in
  (broadcast stringify (UserLeft userId (roster (users s'))) None s', s').

(** The network changes the [readyState] of the socket of [userId]. *)
Definition socket_state (userId : string) (st : Z) (s : t) : t :=
  match JsMap.get userId (users s) with
  | Some user =>
      let user' := {| id := id user;
                      username := username user;
                      color := color user;
                      ws := {| ws_id := ws_id (ws user); readyState := st |} |} in
      with_users s (JsMap.set userId user' (users s))
  | None => s
  end.

(** The recipients of a broadcast in the words of the specification: the
    connected sessions whose transport is open, without the excluded one. *)
Definition recipients (excludeUserId : option string)
    (us : list (string * User)) : list WebSocket :=
  omap (λ entry,
          if decide (Some entry.1 = excludeUserId) then None
          else if decide (readyState (ws entry.2) = OPEN)
               then Some (ws entry.2) else None)
       us.

(** Events of a run of the server. *)
Inductive Event : Type :=
  | Connection (sock : WebSocket) (i j k : nat)
  | Incoming (now : Z) (userId : string) (parsed : option (gmap string value))
  | Close (userId : string)
  | SocketState (userId : string) (st : Z).

Definition step (stringify : Message → string) (e : Event) (s : t)
  : list (Effect Message) * t :=
  match e with
  | Connection sock i j k => on_connection stringify sock i j k s
  | Incoming now userId parsed => on_message stringify now userId parsed s
  | Close userId => on_close stringify userId s
  | SocketState userId st => ([], socket_state userId st s)
  end.

Inductive reachable (stringify : Message → string) : t → Prop :=
  | reachable_init h : reachable stringify (init h)
  | reachable_step e s :
      reachable stringify s → reachable stringify (snd (step stringify e s)).

(** The [type]s that the [switch] of the message handler has a case for. *)
Definition handled_types : list string :=
  ["draw"; "cursor"; "undo"; "redo"; "clear"].

(** The id that the [n]-th connection gets, and its colour. *)
Definition nth_userId (n : Z) : string := "user_" +:+ pretty n.

Definition nth_color (n : Z) : string :=
  nth (Z.to_nat ((n - 1) `mod` 15)) userColors EmptyString.

(** A registered session: filed under its own id, which is the id of some
    connection so far, with the colour of that connection. *)
Definition registered (s : t) (entry : string * User) : Prop :=
  id entry.2 = entry.1 ∧
  ∃ n, 1 ≤ n ≤ userIdCounter s ∧
       entry.1 = nth_userId n ∧ color entry.2 = nth_color n.

(** The sessions of a running server, as an invariant of its events: the
    two counters move together, no id is registered twice, and every
    entry is a registered session. *)
Definition sessions_ok (s : t) : Prop :=
  colorIndex s = userIdCounter s ∧ 0 ≤ userIdCounter s ∧
  NoDup (JsMap.keys (users s)) ∧ Forall (registered s) (users s).

(** The calls that the handlers make on the log: [addOperation] only with
    the payload of [handleDraw]. *)
Definition draw_call (c : DrawingState.Call) : Prop :=
  match c with
  | DrawingState.AddOperation _ operation =>
      ∃ userId drawData, operation = draw_payload userId drawData
  | _ => True
  end.

(** A record made by [handleDraw]: type "draw", a session id as [userId],
    and an id the log assigned. *)
Definition draw_record (op : DrawingState.Op) : Prop :=
  prop (DrawingState.op_props op) "type" = VStr "draw" ∧
  (∃ userId, prop (DrawingState.op_props op) "userId" = VStr userId) ∧
  DrawingState.numeric_id op.

End Server.

(** ** The client: connection, protocol, canvas events and cursors *)

Module Client.

(** *** [WebSocketClient]

    The socket is the browser's: [socket] holds its [readyState], [None]
    while [this.ws] is [null].  Calling the registered handlers of an
    event is the effect [Emit]. *)
Record Connection : Type := {
  socket : option Z;
  reconnectAttempts : Z;
  maxReconnectAttempts : Z;
  reconnectDelay : Z;
}.

Inductive ConnEffect : Type :=
  | NewSocket
  | Emit (event : string)
  | SetTimeout (delay : Z)
  | Write (data : string).

Definition with_socket (c : Connection) (state : option Z) : Connection :=
  {| socket := state;
     reconnectAttempts := reconnectAttempts c;
     maxReconnectAttempts := maxReconnectAttempts c;
     reconnectDelay := reconnectDelay c |}.

Definition with_attempts (c : Connection) (n : Z) : Connection :=
  {| socket := socket c;
     reconnectAttempts := n;
     maxReconnectAttempts := maxReconnectAttempts c;
     reconnectDelay := reconnectDelay c |}.

(** [connect()]: [constructed] says whether [new WebSocket(url)] returned
    (a socket in the state CONNECTING, 0) or threw. *)
Definition connect (constructed : bool) (c : Connection)
  : list ConnEffect * Connection :=
  if constructed then ([NewSocket], with_socket c (Some 0))
  else ([Emit "error"], c).

(** [constructor(url)] *)
Definition new_connection (constructed : bool) : list ConnEffect * Connection :=
  connect constructed
    {| socket := None; reconnectAttempts := 0;
       maxReconnectAttempts := 5; reconnectDelay := 3000 |}.

Definition attemptReconnect (c : Connection) : list ConnEffect * Connection :=
  if reconnectAttempts c <? maxReconnectAttempts c
  then ([SetTimeout (reconnectDelay c)],
        with_attempts c (reconnectAttempts c + 1))
  else ([], c).

(** [ws.onopen]; the browser has set [readyState] to OPEN. *)
Definition onopen (c : Connection) : list ConnEffect * Connection :=
  ([Emit "connect"], with_attempts (with_socket c (Some OPEN)) 0).

(** [ws.onclose]; the browser has set [readyState] to CLOSED, 3. *)
Definition onclose (c : Connection) : list ConnEffect * Connection :=
  let '(effects, c') := attemptReconnect (with_socket c (Some 3)) in
  (Emit "disconnect" :: effects, c').

(** [send(data)], with the serialised [data]. *)
Definition send (dataStr : string) (c : Connection) : list ConnEffect :=
  match socket c with
  | Some state => if bool_decide (state = OPEN) then [Write dataStr] else []
  | None => []
  end.

(** What happens to a connection: the socket opened, the socket closed,
    a reconnect timer fired. *)
Inductive ConnEvent : Type :=
  | Opened
  | Closed
  | TimerFired (constructed : bool).

Definition conn_step (e : ConnEvent) (c : Connection)
  : list ConnEffect * Connection :=
  match e with
  | Opened => onopen c
  | Closed => onclose c
  | TimerFired constructed => connect constructed c
  end.

Fixpoint conn_run (events : list ConnEvent) (c : Connection)
  : list ConnEffect * Connection :=
  match events with
  | [] => ([], c)
  | e :: events' =>
      let '(effects, c1) := conn_step e c in
      let '(effects', c2) := conn_run events' c1 in
      (effects ++ effects', c2)
  end.

Definition is_timeout (e : ConnEffect) : bool :=
  match e with SetTimeout _ => true | _ => false end.

Definition is_closed (e : ConnEvent) : bool :=
  match e with Closed => true | _ => false end.

Definition is_opened (e : ConnEvent) : bool :=
  match e with Opened => true | _ => false end.

(** *** [DrawingProtocol]

    The messages are the ones the server serialises.  [userId] is [None]
    while [this.userId] is [null]; [users] is the client's [Map] of roster
    entries.  Calling the callbacks of an event with a payload is the
    effect [Callback]; for "draw" the payload is the new object
    [{userId, data}], written as a [Draw] message. *)
Record Protocol : Type := {
  userId : option string;
  users : list (string * Server.RosterEntry);
}.

Definition new_protocol : Protocol := {| userId := None; users := [] |}.

Inductive Emitted : Type :=
  | Callback (event : string) (payload : Server.Message).

(** [data.users.forEach((user) => this.users.set(user.id, user))] *)
Definition set_all (roster : list Server.RosterEntry)
    (us : list (string * Server.RosterEntry))
  : list (string * Server.RosterEntry) :=
  foldl (λ acc user, JsMap.set (Server.r_id user) user acc) us roster.

(** The handler installed by [setupMessageHandlers], with the [handle...]
    method of each type. *)
Definition handle (message : Server.Message) (p : Protocol)
  : list Emitted * Protocol :=
  match message with
  | Server.UserJoined joinedId _ _ roster =>
      ([Callback "userJoined" message],
       {| userId := Some joinedId; users := set_all roster (users p) |})
  | Server.UserLeft leftId _ =>
      ([Callback "userLeft" message],
       {| userId := userId p; users := JsMap.delete leftId (users p) |})
  | Server.Draw senderId data =>
      (if bool_decide (Some senderId ≠ userId p)
       then [Callback "draw" (Server.Draw senderId data)] else [],
       p)
  | Server.Cursor senderId _ _ =>
      (if bool_decide (Some senderId ≠ userId p)
       then [Callback "cursor" message] else [],
       p)
  | Server.Undo _ => ([Callback "undo" message], p)
  | Server.Redo _ => ([Callback "redo" message], p)
  | Server.Clear => ([Callback "clear" message], p)
  | Server.StateSync _ => ([Callback "stateSync" message], p)
  end.

Definition getUser (id : string) (p : Protocol) : option Server.RosterEntry :=
  JsMap.get id (users p).

Definition getAllUsers (p : Protocol) : list Server.RosterEntry :=
  JsMap.values (users p).

(** *** [CursorManager]

    [element] names the DOM node of a cursor; [next_element] is the
    document's supply of new nodes. *)
Record Cursor : Type := {
  element : nat;
  lastUpdate : Z;
}.

Record Cursors : Type := {
  cursors : list (string * Cursor);
  next_element : nat;
}.

Inductive DomEffect : Type :=
  | CreateCursor (el : nat) (color : value) (label : value)
  | MoveCursor (el : nat) (x y : value)
  | RemoveElement (el : nat).

(** [username || "User"]: the label of a cursor. *)
Definition label_of (username : value) : value :=
  match username with
  | VUndefined | VNull | VBool false | VNum 0 | VStr EmptyString => VStr "User"
  | _ => username
  end.

(** [updateCursor(userId, x, y, color, username)]; [now] is the clock
    read last, the one that stays in [lastUpdate]. *)
Definition updateCursor (now : Z) (id : string) (x y color username : value)
    (m : Cursors) : list DomEffect * Cursors :=
  match JsMap.get id (cursors m) with
  | Some cursor =>
      ([MoveCursor (element cursor) x y],
       {| cursors :=
            JsMap.set id {| element := element cursor; lastUpdate := now |}
              (cursors m);
          next_element := next_element m |})
  | None =>
      let el := next_element m in
      ([CreateCursor el color (label_of username); MoveCursor el x y],
       {| cursors :=
            JsMap.set id {| element := el; lastUpdate := now |} (cursors m);
          next_element := S el |})
  end.

Definition removeCursor (id : string) (m : Cursors)
  : list DomEffect * Cursors :=
  match JsMap.get id (cursors m) with
  | Some cursor =>
      ([RemoveElement (element cursor)],
       {| cursors := JsMap.delete id (cursors m);
          next_element := next_element m |})
  | None => ([], m)
  end.

(** The [for ... of this.cursors.entries()] loops: the entries are visited
    in order, each looked at as it was when the loop began (the body
    changes no entry but the one it visits, and that by deleting it). *)
Fixpoint remove_where (stale : Cursor → bool) (entries : list (string * Cursor))
    (m : Cursors) : list DomEffect * Cursors :=
  match entries with
  | [] => ([], m)
  | (id, cursor) :: entries' =>
      let '(effects, m1) :=
        if stale cursor then removeCursor id m else ([], m) in
      let '(effects', m2) := remove_where stale entries' m1 in
      (effects ++ effects', m2)
  end.

(** [removeInactiveCursors(timeoutMs = 5000)]; [None] is an omitted
    argument. *)
Definition removeInactiveCursors (now : Z) (timeoutMs : option Z) (m : Cursors)
  : list DomEffect * Cursors :=
  remove_where
    (λ cursor, bool_decide (default 5000 timeoutMs < now - lastUpdate cursor))
    (cursors m) m.

Definition clear_cursors (m : Cursors) : list DomEffect * Cursors :=
  remove_where (λ _, true) (cursors m) m.

(** *** [CanvasManager]: the mouse handlers

    Canvas coordinates are the numbers that [getCanvasCoordinates]
    computes from an event; the handlers only store them and pass them on,
    so they are kept abstract, as the type [P] of points. *)
Section canvas.
Context {P : Type}.

Record Canvas : Type := {
  isDrawing : bool;
  currentTool : string;
  currentColor : string;
  currentWidth : Z;
  lastPoint : P;
  lastEmitTime : Z;
  throttleDelay : Z;
  onDrawCallback : bool;
  onCursorMoveCallback : bool;
}.

(** A line segment with its style: the arguments of [drawLine], and the
    payload of a draw event. *)
Record Segment : Type := {
  from : P;
  to : P;
  color : string;
  width : Z;
  tool : string;
}.

Inductive CanvasEffect : Type :=
  | CursorMoved (at_point : P)
  | LineDrawn (segment : Segment)
  | DrawSent (segment : Segment).

(** [constructor]: [origin] is the point (0, 0); no callback is set. *)
Definition new_canvas (origin : P) : Canvas :=
  {| isDrawing := false; currentTool := "brush"; currentColor := "#000000";
     currentWidth := 5; lastPoint := origin; lastEmitTime := 0;
     throttleDelay := 16; onDrawCallback := false;
     onCursorMoveCallback := false |}.

Definition handleMouseDown (coords : P) (c : Canvas) : Canvas :=
  {| isDrawing := true; currentTool := currentTool c;
     currentColor := currentColor c; currentWidth := currentWidth c;
     lastPoint := coords; lastEmitTime := lastEmitTime c;
     throttleDelay := throttleDelay c; onDrawCallback := onDrawCallback c;
     onCursorMoveCallback := onCursorMoveCallback c |}.

Definition handleMouseUp (c : Canvas) : Canvas :=
  {| isDrawing := false; currentTool := currentTool c;
     currentColor := currentColor c; currentWidth := currentWidth c;
     lastPoint := lastPoint c; lastEmitTime := lastEmitTime c;
     throttleDelay := throttleDelay c; onDrawCallback := onDrawCallback c;
     onCursorMoveCallback := onCursorMoveCallback c |}.

Definition handleMouseMove (coords : P) (now : Z) (c : Canvas)
  : list CanvasEffect * Canvas :=
  let due := bool_decide (throttleDelay c ≤ now - lastEmitTime c) in
  let cursor :=
    if onCursorMoveCallback c && due then [CursorMoved coords] else [] in
  if negb (isDrawing c) then (cursor, c)
  else
    let segment := {| from := lastPoint c; to := coords;
                      color := currentColor c; width := currentWidth c;
                      tool := currentTool c |} in
    let sent := onDrawCallback c && due in
    (cursor ++ [LineDrawn segment] ++ (if sent then [DrawSent segment] else []),
     {| isDrawing := isDrawing c; currentTool := currentTool c;
        currentColor := currentColor c; currentWidth := currentWidth c;
        lastPoint := coords;
        lastEmitTime := if sent then now else lastEmitTime c;
        throttleDelay := throttleDelay c; onDrawCallback := onDrawCallback c;
        onCursorMoveCallback := onCursorMoveCallback c |}).

Definition with_style (c : Canvas) (tool' color' : string) (width' : Z)
  : Canvas :=
  {| isDrawing := isDrawing c; currentTool := tool';
     currentColor := color'; currentWidth := width';
     lastPoint := lastPoint c; lastEmitTime := lastEmitTime c;
     throttleDelay := throttleDelay c; onDrawCallback := onDrawCallback c;
     onCursorMoveCallback := onCursorMoveCallback c |}.

Definition with_callbacks (c : Canvas) (draw cursor : bool) : Canvas :=
  {| isDrawing := isDrawing c; currentTool := currentTool c;
     currentColor := currentColor c; currentWidth := currentWidth c;
     lastPoint := lastPoint c; lastEmitTime := lastEmitTime c;
     throttleDelay := throttleDelay c; onDrawCallback := draw;
     onCursorMoveCallback := cursor |}.

(** What reaches the canvas: mouse (and touch) events, the setters, and
    the registration of the two callbacks. *)
Inductive CanvasEvent : Type :=
  | MouseDown (coords : P)
  | MouseMove (coords : P) (now : Z)
  | MouseUp
  | SetTool (tool' : string)
  | SetColor (color' : string)
  | SetWidth (width' : Z)
  | OnDraw
  | OnCursorMove.

Definition canvas_step (e : CanvasEvent) (c : Canvas)
  : list CanvasEffect * Canvas :=
  match e with
  | MouseDown coords => ([], handleMouseDown coords c)
  | MouseMove coords now => handleMouseMove coords now c
  | MouseUp => ([], handleMouseUp c)
  | SetTool tool' => ([], with_style c tool' (currentColor c) (currentWidth c))
  | SetColor color' => ([], with_style c (currentTool c) color' (currentWidth c))
  | SetWidth width' => ([], with_style c (currentTool c) (currentColor c) width')
  | OnDraw => ([], with_callbacks c true (onCursorMoveCallback c))
  | OnCursorMove => ([], with_callbacks c (onDrawCallback c) true)
  end.



(** The segments drawn on the local canvas, and the segments sent, in a
    run. *)
Fixpoint canvas_run (events : list CanvasEvent) (c : Canvas)
  : list CanvasEffect * Canvas :=
  match events with
  | [] => ([], c)
  | e :: events' =>
      let '(effects, c1) := canvas_step e c in
      let '(effects', c2) := canvas_run events' c1 in
      (effects ++ effects', c2)
  end.


Definition sent (effects : list CanvasEffect) : list Segment :=
  omap (λ e, match e with DrawSent s => Some s | _ => None end) effects.


End canvas.

Arguments Canvas : clear implicits.
Arguments Segment : clear implicits.
Arguments CanvasEffect : clear implicits.
Arguments CanvasEvent : clear implicits.

End Client.

(** ** Sample logs *)

Module Samples.
Import DrawingState.

Definition heap0 : Heap := {| next_addr := 0 |}.

(** A new log with the default cap after three draws. *)
Definition three_entries : DrawingState.t :=
  (addOperations [(10, ∅); (11, ∅); (12, ∅)] heap0 (constructor None)).2.

(** A payload that brings its own [id] and [timestamp]. *)
Definition stamped_payload : gmap string value :=
  <["id" := VNum 99]> (<["timestamp" := VStr "yesterday"]> ∅).

(** A log built with the cap 0, after three appends. *)
Definition cap_zero_log : DrawingState.t :=
  (addOperations [(10, ∅); (11, ∅); (12, ∅)] heap0 (constructor (Some 0))).2.

(** A log with the cap 1 after two appends of payloads that name their
    ids, 5 and then 1. *)
Definition cap_one_named : DrawingState.t :=
  (addOperations [(10, {["id" := VNum 5]}); (11, {["id" := VNum 1]})]
     heap0 (constructor (Some 1))).2.

(** A log after two appends of payloads that name their ids, 10 and then
    1. *)
Definition descending_log : DrawingState.t :=
  (addOperations [(10, {["id" := VNum 10]}); (11, {["id" := VNum 1]})]
     heap0 (constructor None)).2.

(** Two appends, then an undo. *)
Definition one_undone : Heap * DrawingState.t :=
  run CallUndo
    (run (AddOperation 11 ∅) (run (AddOperation 10 ∅) (heap0, constructor None))).

(** Sockets and users for sample rooms. *)
Definition sock (n : nat) (state : Z) : WebSocket :=
  {| ws_id := n; readyState := state |}.

Definition info (n : nat) (state : Z) : RoomManager.UserInfo :=
  {| RoomManager.ui_ws := Some (sock n state); RoomManager.ui_props := ∅ |}.

(** A registry with one user in the default room and one in room "r1". *)
Definition two_rooms : RoomManager.t :=
  RoomManager.addUserToRoom 3 4 "r1" "u1" (info 1 1)
    (RoomManager.addUserToRoom 1 2 "default" "u0" (info 0 1)
       (RoomManager.constructor 0)).

(** A registry whose room "r1" has four users: the second with a closed
    transport (state 3), the fourth without a transport. *)
Definition busy_room : RoomManager.t :=
  RoomManager.addUserToRoom 0 4 "r1" "u4"
    {| RoomManager.ui_ws := None; RoomManager.ui_props := ∅ |}
    (RoomManager.addUserToRoom 0 3 "r1" "u3" (info 3 1)
       (RoomManager.addUserToRoom 0 2 "r1" "u2" (info 2 3)
          (RoomManager.addUserToRoom 0 1 "r1" "u1" (info 1 1)
             (RoomManager.constructor 0)))).

(** A stand-in for [JSON.stringify] on server messages: the [type] of the
    message. *)
Definition tag (m : Server.Message) : string :=
  match m with
  | Server.UserJoined _ _ _ _ => "user-joined"
  | Server.UserLeft _ _ => "user-left"
  | Server.StateSync _ => "state-sync"
  | Server.Draw _ _ => "draw"
  | Server.Cursor _ _ _ => "cursor"
  | Server.Undo _ => "undo"
  | Server.Redo _ => "redo"
  | Server.Clear => "clear"
  end.

(** A server after two connections, on sockets 1 and 2, both open. *)
Definition two_sessions : Server.t :=
  (Server.step tag (Server.Connection (sock 2 1) 1 1 7)
     (Server.step tag (Server.Connection (sock 1 1) 0 0 42)
        (Server.init heap0)).2).2.

Definition draw_message : gmap string value :=
  <["type" := VStr "draw"]> (<["data" := VRef 7]> ∅).

Definition cursor_message : gmap string value :=
  <["type" := VStr "cursor"]> (<["x" := VNum 3]> (<["y" := VNum 4]> ∅)).

End Samples.

(** ** More sample states *)

Module MoreSamples.
Import DrawingState Samples.

(** The log after [addOperation({}), addOperation({})] and two undos. *)
Definition two_undone : DrawingState.t :=
  undos 2 (addOperations [(10, ∅); (11, ∅)] heap0 (constructor None)).2.

(** A log with the cap 2 after three appends and one undo. *)
Definition capped_run : Heap * DrawingState.t :=
  run CallUndo
    (run (AddOperation 12 ∅)
       (run (AddOperation 11 ∅)
          (run (AddOperation 10 ∅) (heap0, constructor (Some 2))))).

(** A log built with the cap -1. *)
Definition negative_cap_log : DrawingState.t := constructor (Some (-1)).

(** A registry with an empty room "r1", made by [createRoom]. *)
Definition empty_room : RoomManager.t :=
  (RoomManager.createRoom 5 "r1" (RoomManager.constructor 0)).2.

(** The room "r1" of [two_rooms] after a draw was logged in it. *)
Definition drawn_room : RoomManager.t :=
  RoomManager.run
    (RoomManager.LogCall "r1"
       (λ d, (DrawingState.addOperation 7 ∅ heap0 d).2))
    two_rooms.

(** Parsed messages of the types "ping", "undo" and "clear". *)
Definition ping_request : gmap string value := {["type" := VStr "ping"]}.

Definition undo_request : gmap string value := {["type" := VStr "undo"]}.

Definition clear_request : gmap string value := {["type" := VStr "clear"]}.

(** The server with two sessions after a draw message of the first. *)
Definition drawn_sessions : Server.t :=
  (Server.step tag (Server.Incoming 5 "user_1" (Some draw_message))
     two_sessions).2.

(** The same server after the transport of the second session closed. *)
Definition one_closed : Server.t :=
  (Server.step tag (Server.SocketState "user_2" 3) drawn_sessions).2.

(** A connection that has just opened. *)
Definition open_connection : Client.Connection :=
  (Client.conn_run [Client.Opened] (Client.new_connection true).2).2.

(** Seven closes, with the reconnect timers firing in between. *)
Definition seven_closes : list Client.ConnEvent :=
  [Client.Closed; Client.TimerFired true; Client.Closed;
   Client.TimerFired false; Client.Closed; Client.Closed; Client.Closed;
   Client.TimerFired true; Client.Closed; Client.Closed].

(** Cursors of three users, last updated at 1000, 7000 and 2000. *)
Definition three_cursors : Client.Cursors :=
  (Client.updateCursor 2000 "user_3" (VNum 5) (VNum 5) (VStr "#2ecc71") VUndefined
     (Client.updateCursor 7000 "user_2" (VNum 3) (VNum 4) (VStr "#3498db")
        (VStr "CoolMaker7")
        (Client.updateCursor 1000 "user_1" (VNum 1) (VNum 2) (VStr "#e74c3c")
           (VStr "HappyArtist42")
           {| Client.cursors := []; Client.next_element := 0 |}).2).2).2.

(** A canvas on which nothing is being drawn, with a cursor callback. *)
Definition idle_canvas : Client.Canvas nat :=
  (Client.canvas_run [Client.OnCursorMove] (Client.new_canvas 0%nat)).2.

End MoreSamples.

(** * Properties *)

Import Samples.

(** ** Arrays *)

Section arrays.
Context {A : Type}.
Implicit Types l rest : list A.

Lemma pop_app l (x : A) : pop (l ++ [x]) = Some (l, x).
Proof.
  induction l as [|y l IH]; simpl; [done|]. by rewrite IH.
Qed.

Lemma pop_None l : pop l = None ↔ l = [].
Proof.
  split; [|by intros ->].
  destruct l as [|x l]; [done|]. simpl. by destruct (pop l) as [[? ?]|].
Qed.

Lemma pop_Some l rest (x : A) : pop l = Some (rest, x) ↔ l = rest ++ [x].
Proof.
  split; [|intros ->; apply pop_app].
  revert rest. induction l as [|y l IH]; intros rest; simpl; [done|].
  destruct (pop l) as [[r z]|] eqn:E.
  - intros [= <- <-]. simpl. f_equal. by apply IH.
  - intros [= <- <-]. apply pop_None in E. by subst.
Qed.

Lemma pop_length_0 l : pop l = None ↔ length l = 0%nat.
Proof. rewrite pop_None. by destruct l. Qed.

Lemma slice_neg_drop (n : Z) l :
  0 < n → slice (- n) l = drop (length l - Z.to_nat n) l.
Proof.
  intros Hn. unfold slice.
  destruct (Z.ltb_spec (- n) 0) as [_|?]; [|lia].
  f_equal. lia.
Qed.

Lemma slice_0 l : slice (- 0) l = l.
Proof.
  unfold slice. simpl. rewrite Z.min_l by lia. done.
Qed.

End arrays.

(** ** The operation log *)

Section log.
Import DrawingState.
Implicit Types (s : DrawingState.t) (h : Heap) (op : Op).

Lemma constructor_default :
  maxOperations (constructor None) = 500 ∧
  ∀ cap, maxOperations (constructor (Some cap)) = cap.
Proof. done. Qed.

Lemma undo_nonempty s rest op :
  operations s = rest ++ [op] →
  undo s =
    (Success rest,
     {| operations := rest;
        redoStack := redoStack s ++ [op];
        maxOperations := maxOperations s;
        operationIdCounter := operationIdCounter s |}).
Proof. intros E. unfold undo. by rewrite E, pop_app. Qed.

Lemma redo_nonempty s rest op :
  redoStack s = rest ++ [op] →
  redo s =
    (Success (operations s ++ [op]),
     {| operations := operations s ++ [op];
        redoStack := rest;
        maxOperations := maxOperations s;
        operationIdCounter := operationIdCounter s |}).
Proof. intros E. unfold redo. by rewrite E, pop_app. Qed.

Lemma undo_empty s : operations s = [] → undo s = (Failure "Nothing to undo", s).
Proof. intros E. unfold undo. by rewrite E. Qed.

Lemma redo_empty s : redoStack s = [] → redo s = (Failure "Nothing to redo", s).
Proof. intros E. unfold redo. by rewrite E. Qed.

Lemma snoc_cases {A : Type} (l : list A) : l = [] ∨ ∃ rest x, l = rest ++ [x].
Proof.
  destruct (pop l) as [[rest x]|] eqn:E.
  - right. exists rest, x. by apply pop_Some.
  - left. by apply pop_None.
Qed.

(** C1. On a log whose entries are not empty, [undo] succeeds, the [redo]
    that follows it succeeds, and the log is then the one before the
    [undo]: the same records in [operations], in the same order, the same
    [redoStack] (and the same cap and counter); the [redo] also returns
    that sequence of entries. *)
Theorem undo_then_redo_restores s :
  operations s ≠ [] →
  is_failure (undo s).1 = false ∧
  redo (undo s).2 = (Success (operations s), s).
Proof.
  intros Hne. destruct (snoc_cases (operations s)) as [E|(rest & op & E)]; [done|].
  rewrite (undo_nonempty _ _ _ E). split; [done|]. simpl.
  erewrite redo_nonempty by (simpl; reflexivity). simpl.
  rewrite <- E. by destruct s.
Qed.

Lemma undo_then_redo_restores_witness :
  operations three_entries ≠ [] ∧
  is_failure (undo three_entries).1 = false ∧
  redo (undo three_entries).2 = (Success (operations three_entries), three_entries).
Proof.
  split; [by vm_compute|].
  apply (undo_then_redo_restores three_entries). by vm_compute.
Defined.

(** C3, as stated, at the new log: the reason that [undo] reports there is
    not the string "nothing to undo". *)
Lemma undo_reason_not_lowercase :
  undo (constructor None) ≠ (Failure "nothing to undo", constructor None).
Proof. by vm_compute. Qed.

(** C3, amended.  [undo] fails exactly when [operations] is empty, and
    then returns the failure with the message "Nothing to undo" and the
    log as it was; [redo] fails exactly when [redoStack] is empty, with
    "Nothing to redo" and the log as it was. *)
Theorem undo_redo_fail_iff_empty s :
  match operations s with
  | [] => undo s = (Failure "Nothing to undo", s)
  | _ :: _ => is_failure (undo s).1 = false
  end ∧
  match redoStack s with
  | [] => redo s = (Failure "Nothing to redo", s)
  | _ :: _ => is_failure (redo s).1 = false
  end.
Proof.
  split.
  - destruct (snoc_cases (operations s)) as [E|(rest & op & E)].
    + rewrite E. by apply undo_empty.
    + rewrite (undo_nonempty _ _ _ E). rewrite E. by destruct rest.
  - destruct (snoc_cases (redoStack s)) as [E|(rest & op & E)].
    + rewrite E. by apply redo_empty.
    + rewrite (redo_nonempty _ _ _ E). rewrite E. by destruct rest.
Qed.

End log.

(** ** Appending *)

Section append.
Import DrawingState.
Implicit Types (s : DrawingState.t) (h : Heap) (op : Op).
Implicit Types (operation : gmap string value).

Lemma addOperation_unfold now operation h s :
  addOperation now operation h s =
    (let op := {| op_addr := next_addr h;
                  op_props :=
                    op_literal (operationIdCounter s + 1) now operation |} in
     (op, {| next_addr := S (next_addr h) |},
      {| operations := kept (maxOperations s) (operations s ++ [op]);
         redoStack := [];
         maxOperations := maxOperations s;
         operationIdCounter := operationIdCounter s + 1 |})).
Proof. reflexivity. Qed.

Lemma kept_positive cap (pushed : list Op) :
  0 < cap → kept cap pushed = drop (length pushed - Z.to_nat cap) pushed.
Proof.
  intros Hcap. unfold kept.
  destruct (Z.gtb_spec (Z.of_nat (length pushed)) cap) as [Hgt|Hle].
  - by apply slice_neg_drop.
  - replace (length pushed - Z.to_nat cap)%nat with 0%nat by lia. done.
Qed.

Lemma kept_zero (pushed : list Op) : kept 0 pushed = pushed.
Proof. unfold kept. destruct (_ >? _); [apply slice_0|done]. Qed.

Lemma kept_last cap l op : 0 < cap → last (kept cap (l ++ [op])) = Some op.
Proof.
  intros Hcap. rewrite kept_positive by done.
  rewrite length_app. simpl.
  rewrite drop_app_le by lia. apply last_snoc.
Qed.

Lemma kept_length cap (pushed : list Op) :
  0 < cap → Z.of_nat (length (kept cap pushed)) ≤ cap.
Proof. intros Hcap. rewrite kept_positive, length_drop by done. lia. Qed.

Lemma op_literal_id counter now operation :
  prop (op_literal counter now operation) "id"
  = default (VNum counter) (operation !! "id").
Proof.
  unfold prop, op_literal.
  destruct (operation !! "id") as [v|] eqn:E.
  - by erewrite lookup_union_Some_l.
  - rewrite lookup_union_r by done. by simplify_map_eq.
Qed.

Lemma op_literal_timestamp counter now operation :
  prop (op_literal counter now operation) "timestamp"
  = default (VNum now) (operation !! "timestamp").
Proof.
  unfold prop, op_literal.
  destruct (operation !! "timestamp") as [v|] eqn:E.
  - by erewrite lookup_union_Some_l.
  - rewrite lookup_union_r by done. by simplify_map_eq.
Qed.

Lemma op_literal_payload counter now operation k v :
  operation !! k = Some v → prop (op_literal counter now operation) k = v.
Proof.
  intros E. unfold prop, op_literal. by erewrite lookup_union_Some_l.
Qed.

(** C10. Whatever the log and the clock, a payload with an own [id]
    property gives the returned record that [id], and a payload with an own
    [timestamp] property gives it that [timestamp], in place of the values
    the log assigns; the id counter advances by one all the same, and the
    returned record is the one pushed onto [operations]. *)
Theorem payload_overrides_id_and_timestamp now operation h s :
  let '(op, _, s') := addOperation now operation h s in
  (∀ v, operation !! "id" = Some v → op_id op = v) ∧
  (∀ v, operation !! "timestamp" = Some v → op_timestamp op = v) ∧
  operationIdCounter s' = operationIdCounter s + 1 ∧
  operations s' = kept (maxOperations s) (operations s ++ [op]).
Proof.
  rewrite addOperation_unfold. simpl. split_and!; [| |done|done].
  - intros v E. unfold op_id. simpl. by apply op_literal_payload.
  - intros v E. unfold op_timestamp. simpl. by apply op_literal_payload.
Qed.

Lemma payload_overrides_id_and_timestamp_witness :
  let '(op, _, s') :=
    addOperation 1700000000000 stamped_payload
      heap0 (constructor None) in
  op_id op = VNum 99 ∧ op_timestamp op = VStr "yesterday" ∧
  operationIdCounter s' = 1.
Proof.
  pose proof (payload_overrides_id_and_timestamp 1700000000000
                stamped_payload heap0 (constructor None)) as H.
  destruct (addOperation _ _ _ _) as [[op h'] s'].
  destruct H as (Hid & Hts & Hc & _). split_and!.
  - apply Hid. reflexivity.
  - apply Hts. reflexivity.
  - exact Hc.
Defined.

(** What [addOperation] does with a payload that has no own [id] and no
    own [timestamp], on a log with a positive cap: it returns a record
    with the next id and the clock's timestamp and the payload's
    properties, that record is the newest entry, [redoStack] is empty and
    a [redo] fails. *)
Lemma addOperation_plain now operation h s :
  operation !! "id" = None →
  operation !! "timestamp" = None →
  0 < maxOperations s →
  let '(op, _, s') := addOperation now operation h s in
  op_id op = VNum (operationIdCounter s + 1) ∧
  op_timestamp op = VNum now ∧
  (∀ k v, operation !! k = Some v → prop (op_props op) k = v) ∧
  operationIdCounter s' = operationIdCounter s + 1 ∧
  last (operations s') = Some op ∧
  redoStack s' = [] ∧
  redo s' = (Failure "Nothing to redo", s').
Proof.
  intros Hid Hts Hcap. rewrite addOperation_unfold. simpl.
  unfold op_id, op_timestamp. simpl.
  rewrite op_literal_id, op_literal_timestamp, Hid, Hts. simpl.
  split_and!; try done.
  - intros k v. apply op_literal_payload.
  - by apply kept_last.
Qed.

(** C4, at a payload with an own [id]: on a new log the record returned
    for the payload [{id: 99}] carries the id 99, while the id the log
    assigned, the value of its counter after the call, is 1. *)
Theorem addOperation_returns_payload_id :
  let '(op, _, s') :=
    addOperation 1700000000000 {["id" := VNum 99]}
      heap0 (constructor None) in
  operationIdCounter s' = 1 ∧
  op_id op = VNum 99 ∧
  op_id op ≠ VNum (operationIdCounter s') ∧
  operations s' = [op].
Proof. by vm_compute. Qed.

End append.

(** ** The size cap *)

Section cap.
Import DrawingState.
Implicit Types (s : DrawingState.t) (h : Heap) (op : Op).
Implicit Types (calls : list (Z * gmap string value)).

Lemma addOperations_cons now operation calls h s :
  addOperations ((now, operation) :: calls) h s =
    (let '(op, h1, s1) := addOperation now operation h s in
     let '(ops, h2, s2) := addOperations calls h1 s1 in
     (op :: ops, h2, s2)).
Proof. reflexivity. Qed.

(** With a positive cap, a run of appends leaves the last [cap] records of
    what was there followed by what the run created. *)
Lemma addOperations_kept calls : ∀ h s,
  0 < maxOperations s →
  Z.of_nat (length (operations s)) ≤ maxOperations s →
  let '(created, _, s') := addOperations calls h s in
  length created = length calls ∧
  maxOperations s' = maxOperations s ∧
  operationIdCounter s' = operationIdCounter s + Z.of_nat (length calls) ∧
  operations s' =
    drop (length (operations s) + length calls - Z.to_nat (maxOperations s))
      (operations s ++ created).
Proof.
  induction calls as [|[now operation] calls IH]; intros h s Hcap Hlen.
  - simpl. split_and!; [done|done|lia|].
    rewrite app_nil_r.
    replace (_ + 0 - _)%nat with 0%nat by lia. done.
  - rewrite addOperations_cons, addOperation_unfold. simpl.
    set (op := {| op_addr := next_addr h; op_props := _ |}).
    set (s1 := {| operations := kept _ _; redoStack := _ |}).
    specialize (IH {| next_addr := S (next_addr h) |} s1 Hcap
                  (kept_length _ _ Hcap)).
    destruct (addOperations calls _ s1) as [[created h2] s2].
    destruct IH as (Hc & Hm & Hn & Hops). split_and!.
    + simpl. by rewrite Hc.
    + by rewrite Hm.
    + rewrite Hn. simpl. lia.
    + rewrite Hops. simpl operations. simpl maxOperations.
      rewrite kept_positive by done.
      rewrite length_drop, length_app. simpl length.
      rewrite <- (drop_app_le (operations s ++ [op]) created) by
        (rewrite length_app; simpl; lia).
      rewrite drop_drop, <- app_assoc. simpl. f_equal. lia.
Qed.

(** When no payload of the run has an own [id], the records it creates
    carry the next ids, in order. *)
Lemma addOperations_ids calls : ∀ h s,
  Forall (λ c, c.2 !! "id" = None) calls →
  op_id <$> (addOperations calls h s).1.1
  = VNum <$> seqZ (operationIdCounter s + 1) (Z.of_nat (length calls)).
Proof.
  induction calls as [|[now operation] calls IH]; intros h s Hplain; [done|].
  apply Forall_cons in Hplain as [Hid Hplain].
  rewrite addOperations_cons, addOperation_unfold. simpl.
  set (op := {| op_addr := next_addr h; op_props := _ |}).
  set (s1 := {| operations := kept _ _; redoStack := _ |}).
  specialize (IH {| next_addr := S (next_addr h) |} s1 Hplain).
  destruct (addOperations calls _ s1) as [[created h2] s2].
  cbn [fst snd] in *. cbn [operationIdCounter s1] in IH.
  rewrite seqZ_cons by lia. rewrite !fmap_cons. f_equal.
  - unfold op_id, op. cbn [op_props]. by rewrite op_literal_id, Hid.
  - rewrite IH. f_equal. f_equal; lia.
Qed.

(** On a log built with a positive cap: after any run of appends the
    entries are at most [cap], they are the last [cap] records the run
    created, and when no payload has an own [id] their ids are the last
    [cap] of 1, ..., n. *)
Lemma appends_keep_most_recent (cap : Z) calls h :
  0 < cap →
  let '(created, _, s') := addOperations calls h (constructor (Some cap)) in
  Z.of_nat (length (operations s')) ≤ cap ∧
  operations s' = drop (length calls - Z.to_nat cap) created ∧
  (Forall (λ c, c.2 !! "id" = None) calls →
   op_id <$> operations s'
   = VNum <$> drop (length calls - Z.to_nat cap)
                (seqZ 1 (Z.of_nat (length calls)))).
Proof.
  intros Hcap.
  pose proof (addOperations_kept calls h (constructor (Some cap))) as Hk.
  pose proof (addOperations_ids calls h (constructor (Some cap))) as Hi.
  destruct (addOperations calls h _) as [[created h'] s'].
  simpl in Hk, Hi. destruct Hk as (Hc & Hm & Hn & Hops); [lia..|].
  split_and!.
  - rewrite Hops, length_drop. simpl. lia.
  - by rewrite Hops.
  - intros Hplain. rewrite Hops, fmap_drop. cbn [constructor operations app].
    rewrite Hi by done. cbn [constructor operationIdCounter].
    by rewrite fmap_drop.
Qed.

(** With the cap 0 nothing is ever dropped. *)
Lemma addOperations_cap_zero calls : ∀ h s,
  maxOperations s = 0 →
  let '(created, _, s') := addOperations calls h s in
  maxOperations s' = 0 ∧ operations s' = operations s ++ created.
Proof.
  induction calls as [|[now operation] calls IH]; intros h s Hcap.
  - simpl. by rewrite app_nil_r.
  - rewrite addOperations_cons, addOperation_unfold. simpl.
    set (op := {| op_addr := next_addr h; op_props := _ |}).
    set (s1 := {| operations := kept _ _; redoStack := _ |}).
    specialize (IH {| next_addr := S (next_addr h) |} s1 Hcap).
    destruct (addOperations calls _ s1) as [[created h2] s2].
    destruct IH as [Hm Hops]. split; [done|].
    rewrite Hops. simpl. rewrite Hcap, kept_zero. by rewrite <- app_assoc.
Qed.

(** C2, at two runs of appends.  On a log built with the cap 0, three
    appends leave three entries.  On a log built with the cap 1, appending
    payloads that name the ids 5 and then 1 leaves the entry with the id 1:
    the one appended last, not the one with the largest id. *)
Theorem cap_zero_and_named_ids :
  (maxOperations cap_zero_log = 0 ∧
   length (operations cap_zero_log) = 3%nat ∧
   op_id <$> operations cap_zero_log = [VNum 1; VNum 2; VNum 3]) ∧
  (maxOperations cap_one_named = 1 ∧
   op_id <$> operations cap_one_named = [VNum 1]).
Proof. by vm_compute. Qed.

End cap.

(** ** Logs reached from a new one *)

Section lists.
Context {A : Type}.
Implicit Types (l k : list A) (R : relation A) (P : A → Prop).

Lemma StronglySorted_sublist R l k :
  k `sublist_of` l → StronglySorted R l → StronglySorted R k.
Proof.
  induction 1 as [|x k l Hkl IH|x k l Hkl IH]; intros Hl; [done|..].
  - apply StronglySorted_cons in Hl as [Hx Hl].
    apply StronglySorted_cons. split; [|by apply IH].
    apply Forall_forall. intros y Hy.
    rewrite Forall_forall in Hx. apply Hx. by eapply elem_of_sublist.
  - apply StronglySorted_cons in Hl as [_ Hl]. by apply IH.
Qed.

Lemma Forall_sublist P l k : k `sublist_of` l → Forall P l → Forall P k.
Proof.
  rewrite !Forall_forall. intros Hkl Hl x Hx. apply Hl.
  by eapply elem_of_sublist.
Qed.

Lemma filter_none P `{!∀ x, Decision (P x)} l :
  Forall (λ x, ¬ P x) l → filter P l = [].
Proof.
  induction 1 as [|x l Hx _ IH]; [done|].
  by rewrite filter_cons, decide_False.
Qed.

Lemma omap_filter {B : Type} (f g : A → option B) P `{!∀ x, Decision (P x)} l :
  (∀ x, g x = if decide (P x) then f x else None) →
  omap g l = omap f (filter P l).
Proof.
  intros Hg. induction l as [|x l IH]; [done|].
  rewrite filter_cons.
  change (omap g (x :: l))
    with (match g x with Some y => y :: omap g l | None => omap g l end).
  rewrite Hg, IH. by destruct (decide (P x)).
Qed.

End lists.

Section reached.
Import DrawingState.
Implicit Types (s : DrawingState.t) (h : Heap) (op : Op) (st : Heap * DrawingState.t).

Lemma timeline_undo s : timeline (undo s).2 = timeline s.
Proof.
  destruct (snoc_cases (operations s)) as [E|(rest & op & E)].
  - by rewrite undo_empty.
  - rewrite (undo_nonempty _ _ _ E). unfold timeline. simpl.
    by rewrite E, reverse_snoc, <- app_assoc.
Qed.

Lemma timeline_redo s : timeline (redo s).2 = timeline s.
Proof.
  destruct (snoc_cases (redoStack s)) as [E|(rest & op & E)].
  - by rewrite redo_empty.
  - rewrite (redo_nonempty _ _ _ E). unfold timeline. simpl.
    by rewrite E, reverse_snoc, <- app_assoc.
Qed.

Lemma kept_sublist cap (pushed : list Op) : kept cap pushed `sublist_of` pushed.
Proof.
  unfold kept, slice. destruct (_ >? _); [apply sublist_drop|done].
Qed.

Lemma timeline_addOperation now operation h s :
  timeline (addOperation now operation h s).2
  = kept (maxOperations s)
      (operations s ++ [(addOperation now operation h s).1.1]).
Proof.
  rewrite addOperation_unfold. unfold timeline. simpl. by rewrite app_nil_r.
Qed.

Lemma run_addOperation now operation st :
  run (AddOperation now operation) st
  = ((addOperation now operation st.1 st.2).1.2,
     (addOperation now operation st.1 st.2).2).
Proof. reflexivity. Qed.

(** One proof for the two orders the timeline keeps.  [good] selects the
    calls under which the order is kept; a new record must come after all
    records present and satisfy [B], and [B] must survive every call. *)
Section order.
Variable R : relation Op.
Variable B : Heap * DrawingState.t → Op → Prop.
Variable good : Call → Prop.

Hypothesis B_run : ∀ c st op, B st op → B (run c st) op.

Hypothesis new_last : ∀ now operation st,
  good (AddOperation now operation) →
  let op := (addOperation now operation st.1 st.2).1.1 in
  B (run (AddOperation now operation) st) op ∧ ∀ x, B st x → R x op.

Lemma timeline_sorted_run c st :
  good c → timeline_sorted R B st → timeline_sorted R B (run c st).
Proof.
  intros Hc [Hs Hb]. unfold timeline_sorted.
  assert (∀ l, Forall (B st) l → Forall (B (run c st)) l) as Hmono.
  { intros l Hl. eapply Forall_impl; [exact Hl|]. intros ?. apply B_run. }
  destruct c as [now operation| | |].
  - destruct (new_last now operation st Hc) as [Hop Hlast].
    rewrite run_addOperation in *. cbn [snd].
    rewrite timeline_addOperation.
    set (op := (addOperation now operation st.1 st.2).1.1) in *.
    unfold timeline in Hs, Hb. apply Forall_app in Hb as [Hb _].
    apply StronglySorted_app_1_l in Hs.
    split.
    + apply (StronglySorted_sublist _ _ _ (kept_sublist _ _)).
      apply StronglySorted_app_2; [|done|repeat constructor].
      intros x1 x2 Hx1 ->%list_elem_of_singleton.
      apply Hlast. rewrite Forall_forall in Hb. by apply Hb.
    + apply (Forall_sublist _ _ _ (kept_sublist _ _)).
      apply Forall_app. split; [by apply Hmono|]. by repeat constructor.
  - simpl. rewrite timeline_undo. split; [done|by apply Hmono].
  - simpl. rewrite timeline_redo. split; [done|by apply Hmono].
  - simpl. unfold timeline. simpl. split; constructor.
Qed.

End order.

Lemma timeline_new cap : timeline (constructor cap) = [].
Proof. reflexivity. Qed.

(** Along the timeline of a reachable log the records are in allocation
    order, all of them allocated. *)
Lemma reachable_allocation_order st :
  reachable st → timeline_sorted addr_lt allocated st.
Proof.
  induction 1 as [h cap|c st _ IH].
  - split; simpl; rewrite timeline_new; constructor.
  - apply (timeline_sorted_run addr_lt allocated (λ _, True)); [| |done|done].
    + intros c' st' op. unfold allocated.
      destruct c' as [now operation| | |]; [|done..].
      rewrite run_addOperation, addOperation_unfold. simpl. lia.
    + intros now operation st' _. rewrite run_addOperation.
      rewrite addOperation_unfold. unfold allocated, addr_lt. simpl.
      split; [lia|done].
Qed.

(** C5. In every log reached from a new one by [addOperation], [undo],
    [redo] and [clear], no record of [operations] is in [redoStack]. *)
Theorem entries_and_undone_disjoint st :
  reachable st → ∀ op, op ∈ operations st.2 → op ∉ redoStack st.2.
Proof.
  intros [Hs _]%reachable_allocation_order op Hop Hre.
  apply elem_of_reverse in Hre.
  pose proof (StronglySorted_app_1_elem_of _ _ _ _ _ Hs Hop Hre) as Hlt.
  unfold addr_lt in Hlt. lia.
Qed.

Lemma one_undone_reachable : reachable one_undone.
Proof. unfold one_undone. repeat apply reachable_run. apply reachable_new. Qed.

Lemma entries_and_undone_disjoint_witness :
  length (operations one_undone.2) = 1%nat ∧
  length (redoStack one_undone.2) = 1%nat ∧
  ∀ op, op ∈ operations one_undone.2 → op ∉ redoStack one_undone.2.
Proof.
  split_and!; [reflexivity..|].
  exact (entries_and_undone_disjoint one_undone one_undone_reachable).
Defined.

End reached.

(** ** Entries after a given id *)

Section since.
Import DrawingState.
Implicit Types (s : DrawingState.t) (op : Op) (st : Heap * DrawingState.t).

Lemma id_le_num_mono (a b : Z) op : a ≤ b → id_le_num a op → id_le_num b op.
Proof. unfold id_le_num. destruct (op_id op); try done. lia. Qed.

Lemma undo_counter s : operationIdCounter (undo s).2 = operationIdCounter s.
Proof. unfold undo. by destruct (pop _) as [[??]|]. Qed.

Lemma redo_counter s : operationIdCounter (redo s).2 = operationIdCounter s.
Proof. unfold redo. by destruct (pop _) as [[??]|]. Qed.

(** When no payload had an own [id], the ids along the timeline are
    numbers in increasing order, none above the counter. *)
Lemma reachable_plain_id_order st :
  reachable_plain st → timeline_sorted id_lt id_assigned st.
Proof.
  induction 1 as [h cap|c st Hc _ IH].
  - split; simpl; rewrite timeline_new; constructor.
  - apply (timeline_sorted_run id_lt id_assigned plain); [| |done|done].
    + intros c' st' op. unfold id_assigned. apply id_le_num_mono.
      destruct c' as [now operation| | |].
      * rewrite run_addOperation, addOperation_unfold. simpl. lia.
      * simpl. by rewrite undo_counter.
      * simpl. by rewrite redo_counter.
      * done.
    + intros now operation st' Hid. rewrite run_addOperation.
      rewrite addOperation_unfold. unfold id_assigned, id_lt, id_le_num.
      simpl in *.
      assert (op_id {| op_addr := next_addr st'.1;
                       op_props := op_literal (operationIdCounter st'.2 + 1)
                                     now operation |}
              = VNum (operationIdCounter st'.2 + 1)) as ->.
      { unfold op_id. simpl. by rewrite op_literal_id, Hid. }
      split; [lia|]. intros x. destruct (op_id x); try done. lia.
Qed.

Lemma reachable_plain_ascending st :
  reachable_plain st → ids_ascending (operations st.2).
Proof.
  intros [Hs Hb]%reachable_plain_id_order. unfold timeline in *.
  apply StronglySorted_app_1_l in Hs. apply Forall_app in Hb as [Hb _].
  split; [|done]. eapply Forall_impl; [exact Hb|].
  intros op. unfold id_assigned, id_le_num, numeric_id. by destruct (op_id op).
Qed.

(** When no payload had an own [id], no id is at once on an entry and on
    an undone record. *)
Lemma plain_ids_disjoint st a b :
  reachable_plain st →
  a ∈ operations st.2 → b ∈ redoStack st.2 → op_id a ≠ op_id b.
Proof.
  intros [Hs _]%reachable_plain_id_order Ha Hb%elem_of_reverse E.
  pose proof (StronglySorted_app_1_elem_of _ _ _ _ _ Hs Ha Hb) as Hlt.
  unfold id_lt in Hlt. rewrite E in Hlt. destruct (op_id b); try done. lia.
Qed.

Context `{rel : !Relational}.

Lemma ids_ascending_last_max l op (m : Z) :
  ids_ascending l → last l = Some op → op_id op = VNum m →
  Forall (id_le_num m) l.
Proof.
  intros [Hnum Hs] Hlast Hm.
  destruct (snoc_cases l) as [->|(rest & x & ->)]; [done|].
  rewrite last_snoc in Hlast. injection Hlast as ->.
  apply Forall_app. split.
  - apply Forall_forall. intros y Hy.
    assert (id_lt y op) as Hlt.
    { eapply StronglySorted_app_1_elem_of; [exact Hs|done|by left]. }
    unfold id_lt, id_le_num in *. rewrite Hm in Hlt.
    destruct (op_id y); try done. lia.
  - repeat constructor. unfold id_le_num. rewrite Hm. lia.
Qed.

(** [getOperationsSince] returns the entries whose id is greater than the
    given one, each as often and in the order it occurs in [operations].
    When the entries carry numeric ids in increasing order, so does the
    result, and it is empty when the given id is a number at or above
    [lastOperationId] (or when [lastOperationId] is [null]). *)
Theorem getOperationsSince_spec s (sinceId : value) :
  let r := getOperationsSince sinceId s in
  r `sublist_of` operations s ∧
  (∀ op, op ∈ r ↔ op ∈ operations s ∧ js_gt (op_id op) sinceId) ∧
  (∀ op, length (filter (op =.) r) =
         if js_gt (op_id op) sinceId
         then length (filter (op =.) (operations s)) else 0%nat) ∧
  (ids_ascending (operations s) →
   ids_ascending r ∧
   (lastOperationId (getSnapshot s) = VNull → r = []) ∧
   (∀ n m : Z, sinceId = VNum n → lastOperationId (getSnapshot s) = VNum m →
               m ≤ n → r = [])).
Proof.
  intros r. unfold r, getOperationsSince. split_and!.
  - apply sublist_filter.
  - intros op. rewrite list_elem_of_filter. tauto.
  - intros op. rewrite list_filter_filter.
    destruct (js_gt (op_id op) sinceId) eqn:E.
    + apply (f_equal length), list_filter_iff. intros x.
      split; [by intros [? _]|]. intros <-. by rewrite E.
    + rewrite filter_none; [done|].
      apply Forall_forall. intros x _ [<- Hgt]. by rewrite E in Hgt.
  - intros Hasc. split_and!.
    + destruct Hasc as [Hnum Hs]. split.
      * eapply Forall_sublist; [apply sublist_filter|done].
      * eapply StronglySorted_sublist; [apply sublist_filter|done].
    + unfold getSnapshot. simpl. destruct (last (operations s)) as [op|] eqn:El.
      * intros Hnull. destruct Hasc as [Hnum _].
        apply last_Some_elem_of in El.
        rewrite Forall_forall in Hnum. specialize (Hnum _ El).
        unfold numeric_id in Hnum. by rewrite Hnull in Hnum.
      * intros _. apply last_None in El. by rewrite El.
    + intros n m -> Hlast Hmn. unfold getSnapshot in Hlast. simpl in Hlast.
      destruct (last (operations s)) as [op|] eqn:El; [|done].
      pose proof (ids_ascending_last_max _ _ _ Hasc El Hlast) as Hall.
      apply filter_none. eapply Forall_impl; [exact Hall|].
      intros x Hx. unfold id_le_num in Hx.
      destruct (op_id x) as [| | |k| |]; try done.
      rewrite js_gt_num. intros Hgt%bool_decide_unpack. lia.
Qed.

End since.

(** C8, at a log whose ids do not ascend: after appending payloads that
    name the ids 10 and then 1, [lastOperationId] is 1, and asking for the
    entries since 5 returns an entry; asking since 0 returns the ids in
    the order 10, 1. *)
Theorem since_last_id_not_empty :
  ¬ (∀ n m : Z,
       DrawingState.lastOperationId
         (DrawingState.getSnapshot descending_log) = VNum m →
       m ≤ n →
       DrawingState.getOperationsSince (rel := DrawingState.numeric_gt) (VNum n) descending_log = []) ∧
  DrawingState.op_id <$> DrawingState.getOperationsSince (rel := DrawingState.numeric_gt) (VNum 0) descending_log
    = [VNum 10; VNum 1].
Proof.
  split; [|by vm_compute].
  intros Hall. specialize (Hall 5 1 eq_refl ltac:(lia)).
  by vm_compute in Hall.
Qed.

Lemma three_entries_ascending :
  DrawingState.ids_ascending (DrawingState.operations three_entries).
Proof.
  apply (reachable_plain_ascending
           (DrawingState.run (DrawingState.AddOperation 12 ∅)
              (DrawingState.run (DrawingState.AddOperation 11 ∅)
                 (DrawingState.run (DrawingState.AddOperation 10 ∅)
                    (heap0, DrawingState.constructor None))))).
  repeat (apply DrawingState.reachable_plain_run; [reflexivity|]).
  apply DrawingState.reachable_plain_new.
Qed.

(** On the log with the entries 1, 2, 3: since 1 there are the entries 2
    and 3, since 3 there is none. *)
Example getOperationsSince_three_entries :
  DrawingState.op_id
    <$> DrawingState.getOperationsSince (rel := DrawingState.numeric_gt)
          (VNum 1) three_entries
    = [VNum 2; VNum 3] ∧
  DrawingState.getOperationsSince (rel := DrawingState.numeric_gt)
    (VNum 3) three_entries = [].
Proof.
  split; [reflexivity|].
  pose proof (getOperationsSince_spec (rel := DrawingState.numeric_gt)
                three_entries (VNum 3)) as (_ & _ & _ & H3).
  destruct (H3 three_entries_ascending) as (_ & _ & Hempty).
  apply (Hempty 3 3); [reflexivity|reflexivity|lia].
Qed.

(** ** Maps *)

Section jsmap.
Context {K V : Type} `{EqDecision K}.
Implicit Types (m : list (K * V)) (k : K) (v : V).

Lemma get_set_eq k v m : JsMap.get k (JsMap.set k v m) = Some v.
Proof.
  induction m as [|[k' v'] m IH]; simpl.
  - by rewrite decide_True.
  - destruct (decide (k = k')) as [->|Hne]; simpl.
    + by rewrite decide_True.
    + by rewrite decide_False.
Qed.

Lemma get_set_ne k k' v m :
  k ≠ k' → JsMap.get k' (JsMap.set k v m) = JsMap.get k' m.
Proof.
  intros Hne. induction m as [|[k0 v0] m IH]; simpl.
  - by rewrite decide_False.
  - destruct (decide (k = k0)) as [->|Hne0]; simpl.
    + by rewrite !decide_False.
    + destruct (decide (k' = k0)); [done|apply IH].
Qed.

Lemma get_delete_eq k m : JsMap.get k (JsMap.delete k m) = None.
Proof.
  unfold JsMap.delete. induction m as [|[k' v'] m IH]; [done|].
  rewrite filter_cons. simpl. destruct (decide (k' ≠ k)); simpl.
  - by rewrite decide_False.
  - done.
Qed.

Lemma get_delete_ne k k' m :
  k ≠ k' → JsMap.get k' (JsMap.delete k m) = JsMap.get k' m.
Proof.
  intros Hne. unfold JsMap.delete. induction m as [|[k0 v0] m IH]; [done|].
  rewrite filter_cons. simpl. destruct (decide (k0 ≠ k)) as [Hk|Hk]; simpl.
  - by rewrite IH.
  - apply dec_stable in Hk as ->. by rewrite decide_False.
Qed.

Lemma get_set_is_Some k k' v m :
  is_Some (JsMap.get k' m) → is_Some (JsMap.get k' (JsMap.set k v m)).
Proof.
  destruct (decide (k = k')) as [->|Hne].
  - by rewrite get_set_eq.
  - by rewrite get_set_ne.
Qed.

Lemma get_elem_of k v m : JsMap.get k m = Some v → (k, v) ∈ m.
Proof.
  induction m as [|[k' v'] m IH]; simpl; [done|].
  destruct (decide (k = k')) as [->|Hne].
  - intros [= ->]. by left.
  - intros Hget. right. by apply IH.
Qed.

Lemma delete_only k v : JsMap.delete k [(k, v)] = [].
Proof. unfold JsMap.delete. rewrite filter_cons. simpl. by rewrite decide_False by tauto. Qed.

End jsmap.

(** ** The room registry *)

Section rooms.
Import RoomManager.
Implicit Types (m : RoomManager.t) (room : Room) (roomId userId : string).

Lemma createRoom_keeps now roomId m k :
  defaultRoomId (createRoom now roomId m).2 = defaultRoomId m ∧
  (is_Some (getRoom k m) → is_Some (getRoom k (createRoom now roomId m).2)).
Proof.
  unfold createRoom, getRoom. destruct (JsMap.get roomId (rooms m)); simpl; [done|].
  split; [done|]. apply get_set_is_Some.
Qed.

Lemma getOrCreateRoom_keeps now roomId m k :
  defaultRoomId (getOrCreateRoom now roomId m).2 = defaultRoomId m ∧
  (is_Some (getRoom k m) → is_Some (getRoom k (getOrCreateRoom now roomId m).2)).
Proof.
  unfold getOrCreateRoom. destruct (getRoom roomId m); [done|].
  apply createRoom_keeps.
Qed.

Lemma deleteRoom_keeps roomId m :
  defaultRoomId (deleteRoom roomId m) = defaultRoomId m ∧
  (is_Some (getRoom (defaultRoomId m) m) →
   is_Some (getRoom (defaultRoomId m) (deleteRoom roomId m))).
Proof.
  unfold deleteRoom, getRoom. case_decide; simpl; [|done].
  split; [done|]. by rewrite get_delete_ne.
Qed.

(** The default room is there after every call. *)
Lemma run_keeps_default c m :
  is_Some (getRoom (defaultRoomId m) m) →
  defaultRoomId (run c m) = defaultRoomId m ∧
  is_Some (getRoom (defaultRoomId m) (run c m)).
Proof.
  intros Hd. destruct c as [now roomId|now roomId|nowRoom nowJoin roomId userId ui
                            |roomId userId|roomId|roomId f]; simpl.
  - destruct (createRoom_keeps now roomId m (defaultRoomId m)). auto.
  - destruct (getOrCreateRoom_keeps now roomId m (defaultRoomId m)). auto.
  - unfold addUserToRoom.
    destruct (getOrCreateRoom_keeps nowRoom roomId m (defaultRoomId m))
      as [Hid Hsome].
    destruct (getOrCreateRoom nowRoom roomId m) as [room m1]. simpl in *.
    split; [done|]. unfold getRoom. simpl. apply get_set_is_Some. by apply Hsome.
  - unfold removeUserFromRoom. destruct (getRoom roomId m) as [room|]; [|done].
    set (m1 := with_rooms m _).
    assert (is_Some (getRoom (defaultRoomId m) m1)) as H1.
    { unfold getRoom, m1. simpl. by apply get_set_is_Some. }
    case_decide; [|done].
    destruct (deleteRoom_keeps roomId m1) as [Hid Hsome]. auto.
  - destruct (deleteRoom_keeps roomId m) as [Hid Hsome]. auto.
  - destruct (getRoom roomId m) as [room|]; [|done]. simpl.
    split; [done|]. unfold getRoom. simpl. by apply get_set_is_Some.
Qed.

Lemma reachable_default m :
  reachable m →
  defaultRoomId m = "default" ∧ is_Some (getRoom "default" m).
Proof.
  induction 1 as [now|c m _ [Hid Hsome]].
  - split; [reflexivity|]. eexists. reflexivity.
  - rewrite <- Hid in Hsome. destruct (run_keeps_default c m Hsome) as [E H'].
    rewrite E, Hid in *. done.
Qed.

(** Removing the only user of a room. *)
Lemma removeUserFromRoom_last roomId userId m room u :
  getRoom roomId m = Some room →
  users room = [(userId, u)] →
  if decide (roomId = defaultRoomId m)
  then getRoom roomId (removeUserFromRoom roomId userId m)
       = Some (with_users room [])
  else getRoom roomId (removeUserFromRoom roomId userId m) = None.
Proof.
  intros Hroom Hu. unfold removeUserFromRoom. rewrite Hroom, Hu, delete_only.
  simpl. case_decide as Hd.
  - rewrite decide_False by tauto. unfold getRoom. simpl. apply get_set_eq.
  - rewrite decide_True by done. unfold deleteRoom. simpl.
    rewrite decide_True by done. unfold getRoom. simpl. apply get_delete_eq.
Qed.

(** C6. In a registry reached from a new one by its calls: the default
    room id is "default" and a room is registered under it, also after
    [deleteRoom "default"]; and removing the only user of a room leaves no
    room under that id when it is not the default one, and leaves the room,
    with no users and the log it had, when it is. *)
Theorem default_room_survives m :
  reachable m →
  defaultRoomId m = "default" ∧
  is_Some (getRoom "default" m) ∧
  is_Some (getRoom "default" (deleteRoom "default" m)) ∧
  ∀ roomId userId room u,
    getRoom roomId m = Some room →
    users room = [(userId, u)] →
    if decide (roomId = "default")
    then ∃ room', getRoom roomId (removeUserFromRoom roomId userId m) = Some room'
                  ∧ users room' = []
                  ∧ drawingState room' = drawingState room
    else getRoom roomId (removeUserFromRoom roomId userId m) = None.
Proof.
  intros Hm. destruct (reachable_default m Hm) as [Hid Hsome].
  split_and!; [done|done|..].
  - apply (reachable_default _ (reachable_run (DeleteRoom "default") m Hm)).
  - intros roomId userId room u Hroom Hu.
    pose proof (removeUserFromRoom_last roomId userId m room u Hroom Hu) as H.
    rewrite Hid in H. case_decide; [|done].
    by exists (with_users room []).
Qed.

Lemma two_rooms_reachable : reachable two_rooms.
Proof.
  apply (reachable_run (AddUserToRoom 3 4 "r1" "u1" (info 1 1))).
  apply (reachable_run (AddUserToRoom 1 2 "default" "u0" (info 0 1))).
  apply reachable_new.
Qed.

Lemma default_room_survives_witness :
  getRoom "r1" (removeUserFromRoom "r1" "u1" two_rooms) = None ∧
  (∃ room', getRoom "default" (removeUserFromRoom "default" "u0" two_rooms)
            = Some room' ∧ users room' = []) ∧
  is_Some (getRoom "default" (deleteRoom "default" two_rooms)).
Proof.
  destruct (default_room_survives two_rooms two_rooms_reachable)
    as (_ & _ & Hdel & Hlast).
  split_and!.
  - eapply (Hlast "r1" "u1"); reflexivity.
  - destruct (Hlast "default" "u0" _ _ eq_refl eq_refl) as (room' & E & Hu & _).
    by exists room'.
  - exact Hdel.
Defined.

End rooms.

(** ** Broadcast to a room *)

Section room_broadcast.
Import RoomManager.
Context {M : Type} (stringify : M → string).
Implicit Types (m : RoomManager.t) (us : list (string * UserInfo)).

Lemma deliver_recipient (messageStr : string) exclude (entry : string * UserInfo) :
  deliver (M := M) messageStr exclude entry
  = (λ sock, Send (ws_id sock) messageStr)
      <$> option_list
            (if decide (Some entry.1 = exclude) then None
             else open_transport entry.2).
Proof.
  unfold deliver, open_transport. destruct (ui_ws entry.2) as [sock|].
  - destruct (decide (Some entry.1 = exclude)) as [He|He].
    + by rewrite bool_decide_eq_false_2 by (by intros ?).
    + rewrite bool_decide_eq_true_2 by done. simpl.
      destruct (decide (readyState sock = 1)).
      * by rewrite bool_decide_eq_true_2.
      * by rewrite bool_decide_eq_false_2.
  - by destruct (decide _).
Qed.

Lemma flat_map_deliver (messageStr : string) exclude us :
  flat_map (deliver (M := M) messageStr exclude) us
  = (λ sock, Send (ws_id sock) messageStr) <$> recipients exclude us.
Proof.
  unfold recipients. induction us as [|entry us IH]; [done|].
  simpl. rewrite IH, deliver_recipient.
  by destruct (if decide _ then _ else _).
Qed.

Lemma recipients_app exclude us1 us2 :
  recipients exclude (us1 ++ us2)
  = recipients exclude us1 ++ recipients exclude us2.
Proof. apply omap_app. Qed.

Lemma elem_of_recipients exclude us (sock : WebSocket) :
  sock ∈ recipients exclude us ↔
  ∃ userId user,
    (userId, user) ∈ us ∧ Some userId ≠ exclude ∧
    ui_ws user = Some sock ∧ readyState sock = 1.
Proof.
  unfold recipients. rewrite list_elem_of_omap. split.
  - intros ([userId user] & Hin & Hs). simpl in Hs.
    destruct (decide _) as [|Hne]; [done|].
    unfold open_transport in Hs. destruct (ui_ws user) as [sock'|] eqn:E; [|done].
    destruct (decide _); [|done]. injection Hs as ->. by exists userId, user.
  - intros (userId & user & Hin & Hne & Hws & Hopen).
    exists (userId, user). split; [done|]. simpl.
    rewrite decide_False by done. unfold open_transport.
    by rewrite Hws, decide_True.
Qed.

(** C9. [broadcastToRoom] does nothing when no room has the id.
    Otherwise it serialises the message, once and first, and then sends
    that string, in the order of the room's users, on the socket of every
    user that has a transport in the open state and is not the excluded
    one, and on no other; a user whose transport is not open contributes
    nothing and the users after it are served as if it were not there. *)
Theorem broadcastToRoom_delivers roomId (message : M) exclude m :
  match getRoom roomId m with
  | None => broadcastToRoom stringify roomId message exclude m = []
  | Some room =>
      broadcastToRoom stringify roomId message exclude m
      = Stringify message ::
        ((λ sock, Send (ws_id sock) (stringify message))
           <$> recipients exclude (users room)) ∧
      (∀ sock, sock ∈ recipients exclude (users room) ↔
               ∃ userId user,
                 (userId, user) ∈ users room ∧ Some userId ≠ exclude ∧
                 ui_ws user = Some sock ∧ readyState sock = 1) ∧
      (∀ before entry after,
         users room = before ++ entry :: after →
         open_transport entry.2 = None →
         recipients exclude (users room)
         = recipients exclude before ++ recipients exclude after)
  end.
Proof.
  unfold broadcastToRoom. destruct (getRoom roomId m) as [room|]; [|done].
  split_and!.
  - by rewrite flat_map_deliver.
  - apply elem_of_recipients.
  - intros before entry after -> Hclosed.
    rewrite recipients_app. f_equal. unfold recipients. simpl.
    rewrite Hclosed. by destruct (decide _).
Qed.

End room_broadcast.

Lemma broadcastToRoom_delivers_witness :
  RoomManager.broadcastToRoom (λ s : string, s) "r1" "hello" None busy_room
  = [Stringify "hello"; Send 1 "hello"; Send 3 "hello"] ∧
  RoomManager.broadcastToRoom (λ s : string, s) "r1" "hello" (Some "u1") busy_room
  = [Stringify "hello"; Send 3 "hello"] ∧
  RoomManager.broadcastToRoom (λ s : string, s) "r2" "hello" None busy_room = [].
Proof.
  pose proof (broadcastToRoom_delivers (λ s : string, s) "r1" "hello" None
                busy_room) as (H1 & _ & Hskip).
  pose proof (broadcastToRoom_delivers (λ s : string, s) "r1" "hello"
                (Some "u1") busy_room) as (H2 & _ & _).
  pose proof (broadcastToRoom_delivers (λ s : string, s) "r2" "hello" None
                busy_room) as H3.
  split_and!.
  - rewrite H1.
    rewrite (Hskip [("u1", RoomManager.user_literal (info 1 1) 1)]
               ("u2", RoomManager.user_literal (info 2 3) 2)
               [("u3", RoomManager.user_literal (info 3 1) 3);
                ("u4", RoomManager.user_literal
                         {| RoomManager.ui_ws := None;
                            RoomManager.ui_props := ∅ |} 4)]
               eq_refl eq_refl).
    reflexivity.
  - exact H2.
  - exact H3.
Defined.

(** ** The connection handler *)

Section server.
Import Server.
Variable stringify : Message → string.
Implicit Types (s : Server.t) (us : list (string * User)).

Lemma server_flat_map_deliver (messageStr : string) exclude us :
  flat_map (deliver messageStr exclude) us
  = (λ sock, Send (ws_id sock) messageStr) <$> recipients exclude us.
Proof.
  unfold recipients. induction us as [|entry us IH]; [done|].
  simpl. rewrite IH. unfold deliver.
  destruct (decide (Some entry.1 = exclude)) as [He|He].
  - by rewrite bool_decide_eq_false_2 by (by intros ?).
  - rewrite bool_decide_eq_true_2 by done. simpl.
    destruct (decide (readyState (ws entry.2) = OPEN)).
    + by rewrite bool_decide_eq_true_2.
    + by rewrite bool_decide_eq_false_2.
Qed.

(** [broadcast] serialises once and first, then sends to the recipients. *)
Lemma broadcast_delivers (message : Message) exclude s :
  broadcast stringify message exclude s
  = Stringify message ::
    ((λ sock, Send (ws_id sock) (stringify message))
       <$> recipients exclude (users s)).
Proof. unfold broadcast. by rewrite server_flat_map_deliver. Qed.

Lemma elem_of_server_recipients exclude us (sock : WebSocket) :
  sock ∈ recipients exclude us ↔
  ∃ userId user,
    (userId, user) ∈ us ∧ Some userId ≠ exclude ∧
    ws user = sock ∧ readyState sock = OPEN.
Proof.
  unfold recipients. rewrite list_elem_of_omap. split.
  - intros ([userId user] & Hin & Hs). simpl in Hs.
    destruct (decide _) as [|Hne]; [done|].
    destruct (decide _) as [Hopen|]; [|done]. injection Hs as <-.
    by exists userId, user.
  - intros (userId & user & Hin & Hne & <- & Hopen).
    exists (userId, user). split; [done|]. simpl.
    by rewrite decide_False, decide_True.
Qed.

(** Excluding a session is broadcasting to the users without it. *)
Lemma recipients_exclude (userId : string) us :
  recipients (Some userId) us = recipients None (JsMap.delete userId us).
Proof.
  unfold recipients, JsMap.delete. apply omap_filter. intros [k u]. simpl.
  destruct (decide (k ≠ userId)) as [Hne|Heq].
  - by rewrite !decide_False by congruence.
  - apply dec_stable in Heq as ->. by rewrite decide_True.
Qed.

Lemma undo_maxOperations d :
  DrawingState.maxOperations (DrawingState.undo d).2
  = DrawingState.maxOperations d.
Proof. unfold DrawingState.undo. by destruct (pop _) as [[??]|]. Qed.

Lemma redo_maxOperations d :
  DrawingState.maxOperations (DrawingState.redo d).2
  = DrawingState.maxOperations d.
Proof. unfold DrawingState.redo. by destruct (pop _) as [[??]|]. Qed.

Lemma on_message_maxOperations now userId parsed s :
  DrawingState.maxOperations
    (drawingState (on_message stringify now userId parsed s).2)
  = DrawingState.maxOperations (drawingState s).
Proof.
  unfold on_message. destruct parsed as [data|]; [|done].
  destruct (prop data "type") as [| | | |ty|]; try done.
  repeat (match goal with
          | |- context [match ?x with _ => _ end] => destruct x; try done
          end).
  - unfold handleUndo.
    pose proof (undo_maxOperations (drawingState s)) as E.
    destruct (DrawingState.undo _) as [[msg|ops] d']; exact E.
  - unfold handleRedo.
    pose proof (redo_maxOperations (drawingState s)) as E.
    destruct (DrawingState.redo _) as [[msg|ops] d']; exact E.
Qed.

(** The server's log keeps the cap it was built with. *)
Lemma reachable_maxOperations s :
  reachable stringify s → DrawingState.maxOperations (drawingState s) = 500.
Proof.
  induction 1 as [h|e s _ IH]; [done|].
  destruct e as [sock i j k|now userId parsed|userId|userId st]; simpl.
  - done.
  - by rewrite on_message_maxOperations.
  - done.
  - unfold socket_state. by destruct (JsMap.get _ _).
Qed.

Lemma on_message_draw now userId data s :
  prop data "type" = VStr "draw" →
  on_message stringify now userId (Some data) s
  = handleDraw stringify now userId (prop data "data") s.
Proof. intros E. unfold on_message. by rewrite E. Qed.

Lemma on_message_cursor now userId data s :
  prop data "type" = VStr "cursor" →
  on_message stringify now userId (Some data) s
  = handleCursor stringify userId data s.
Proof. intros E. unfold on_message. by rewrite E. Qed.

(** C7. In a running server, a message of type "draw" from a session
    appends to the log a record with the message's [data] (and the type
    "draw" and the session's id) as the newest entry, and broadcasts a draw
    event with that same [data] to every connected session whose transport
    is open, the sender among them; a message of type "cursor" leaves the
    whole state, the log with it, as it was, and broadcasts the cursor
    event to every such session but the sender, that is, to the recipients
    of a broadcast to [users] without the sender's entry.  The recipients
    are served in the order of [users], after one serialisation. *)
Theorem draw_echoes_cursor_skips_sender s now sender data :
  reachable stringify s →
  (prop data "type" = VStr "draw" →
   let r := on_message stringify now sender (Some data) s in
   let event := Draw sender (prop data "data") in
   (∃ op, last (DrawingState.operations (drawingState r.2)) = Some op ∧
          DrawingState.operations (drawingState r.2)
          = DrawingState.kept 500
              (DrawingState.operations (drawingState s) ++ [op]) ∧
          prop (DrawingState.op_props op) "data" = prop data "data" ∧
          prop (DrawingState.op_props op) "type" = VStr "draw" ∧
          prop (DrawingState.op_props op) "userId" = VStr sender) ∧
   users r.2 = users s ∧
   r.1 = Stringify event ::
         ((λ sock, Send (ws_id sock) (stringify event))
            <$> recipients None (users s)) ∧
   (∀ user, JsMap.get sender (users s) = Some user →
            readyState (ws user) = OPEN →
            Send (ws_id (ws user)) (stringify event) ∈ r.1)) ∧
  (prop data "type" = VStr "cursor" →
   let r := on_message stringify now sender (Some data) s in
   let event := Cursor sender (prop data "x") (prop data "y") in
   r.2 = s ∧
   r.1 = Stringify event ::
         ((λ sock, Send (ws_id sock) (stringify event))
            <$> recipients (Some sender) (users s)) ∧
   recipients (Some sender) (users s)
   = recipients None (JsMap.delete sender (users s))) ∧
  (∀ exclude sock,
     sock ∈ recipients exclude (users s) ↔
     ∃ userId user,
       (userId, user) ∈ users s ∧ Some userId ≠ exclude ∧
       ws user = sock ∧ readyState sock = OPEN).
Proof.
  intros Hs. split_and!.
  - intros Hty r event. unfold r. rewrite on_message_draw by done.
    unfold handleDraw. rewrite addOperation_unfold.
    cbn [fst snd with_drawingState users drawingState
         DrawingState.operations].
    rewrite (reachable_maxOperations s Hs).
    set (op := {| DrawingState.op_addr := _; DrawingState.op_props := _ |}).
    split_and!.
    + exists op. split_and!.
      * by apply kept_last.
      * done.
      * apply op_literal_payload. unfold draw_payload. by simplify_map_eq.
      * apply op_literal_payload. unfold draw_payload. by simplify_map_eq.
      * apply op_literal_payload. unfold draw_payload. by simplify_map_eq.
    + done.
    + by rewrite broadcast_delivers.
    + intros user Hget Hopen. rewrite broadcast_delivers.
      right. apply (list_elem_of_fmap_2 (λ sock, Send (ws_id sock) _)).
      apply elem_of_server_recipients. exists sender, user.
      split_and!; [by apply get_elem_of|done..].
  - intros Hty r event. unfold r. rewrite on_message_cursor by done.
    unfold handleCursor. cbn [fst snd]. split_and!; [done| |].
    + by rewrite broadcast_delivers.
    + apply recipients_exclude.
  - intros exclude sock. apply elem_of_server_recipients.
Qed.

End server.

Lemma two_sessions_reachable : Server.reachable tag two_sessions.
Proof.
  unfold two_sessions.
  apply (Server.reachable_step tag (Server.Connection (sock 2 1) 1 1 7)).
  apply (Server.reachable_step tag (Server.Connection (sock 1 1) 0 0 42)).
  apply Server.reachable_init.
Qed.

Lemma draw_echoes_cursor_skips_sender_witness :
  (Server.on_message tag 5 "user_1" (Some draw_message) two_sessions).1
  = [Stringify (Server.Draw "user_1" (VRef 7)); Send 1 "draw"; Send 2 "draw"] ∧
  (DrawingState.op_id
     <$> DrawingState.operations
           (Server.drawingState
              (Server.on_message tag 5 "user_1" (Some draw_message)
                 two_sessions).2))
  = [VNum 1] ∧
  (Server.on_message tag 5 "user_1" (Some cursor_message) two_sessions).1
  = [Stringify (Server.Cursor "user_1" (VNum 3) (VNum 4)); Send 2 "cursor"] ∧
  (Server.on_message tag 5 "user_1" (Some cursor_message) two_sessions).2
  = two_sessions.
Proof.
  pose proof (draw_echoes_cursor_skips_sender tag two_sessions 5 "user_1"
                draw_message two_sessions_reachable) as (Hdraw & _ & _).
  pose proof (draw_echoes_cursor_skips_sender tag two_sessions 5 "user_1"
                cursor_message two_sessions_reachable) as (_ & Hcursor & _).
  destruct (Hdraw eq_refl) as (_ & _ & Hsent & _).
  destruct (Hcursor eq_refl) as (Hsame & Hcast & _).
  split_and!.
  - rewrite Hsent. by vm_compute.
  - by vm_compute.
  - rewrite Hcast. by vm_compute.
  - exact Hsame.
Defined.

(** * Further properties of the log *)

Import MoreSamples.

Section log_more.
Import DrawingState.
Implicit Types (s : DrawingState.t) (h : Heap) (op : Op) (st : Heap * DrawingState.t).

Lemma redo_after_undo s : operations s ≠ [] → (redo (undo s).2).2 = s.
Proof.
  intros Hne. destruct (snoc_cases (operations s)) as [E|(rest & op & E)]; [done|].
  rewrite (undo_nonempty _ _ _ E). simpl.
  erewrite redo_nonempty by (simpl; reflexivity). simpl.
  rewrite <- E. by destruct s.
Qed.

(** A [redo] that succeeds is taken back by the [undo] after it: the log
    is again the one before the [redo], and that [undo] returns the
    entries there were. *)
Theorem redo_then_undo_restores s :
  redoStack s ≠ [] →
  is_failure (redo s).1 = false ∧
  undo (redo s).2 = (Success (operations s), s).
Proof.
  intros Hne. destruct (snoc_cases (redoStack s)) as [E|(rest & op & E)]; [done|].
  rewrite (redo_nonempty _ _ _ E). split; [done|]. simpl.
  erewrite undo_nonempty by (simpl; reflexivity). simpl.
  rewrite <- E. by destruct s.
Qed.

Lemma redo_then_undo_restores_witness :
  redoStack two_undone ≠ [] ∧
  undo (redo two_undone).2 = (Success (operations two_undone), two_undone).
Proof.
  split; [by vm_compute|].
  apply (redo_then_undo_restores two_undone). by vm_compute.
Defined.

Lemma undos_S k s : undos (S k) s = (undo (undos k s)).2.
Proof. reflexivity. Qed.

Lemma redos_S_r k s : redos (S k) s = redos k (redo s).2.
Proof. unfold redos. by rewrite Nat.iter_succ_r. Qed.

Lemma undos_shape k s :
  (k ≤ length (operations s))%nat →
  undos k s =
    {| operations := take (length (operations s) - k) (operations s);
       redoStack :=
         redoStack s ++ reverse (drop (length (operations s) - k) (operations s));
       maxOperations := maxOperations s;
       operationIdCounter := operationIdCounter s |}.
Proof.
  induction k as [|k IH]; intros Hk.
  - simpl. rewrite Nat.sub_0_r, firstn_all, drop_all, app_nil_r. by destruct s.
  - rewrite undos_S, IH by lia.
    destruct (lookup_lt_is_Some_2 (operations s) (length (operations s) - S k))
      as [x Hx]; [lia|].
    replace (length (operations s) - k)%nat
      with (S (length (operations s) - S k)) by lia.
    erewrite take_S_r by done.
    erewrite undo_nonempty by (simpl; reflexivity). simpl.
    rewrite (drop_S _ x (length (operations s) - S k)) by done.
    by rewrite reverse_cons, app_assoc.
Qed.

(** [k] undos on a log with at least [k] entries move the last [k]
    entries onto [redoStack], newest first at the bottom, and [k] redos
    after them give the log back as it was. *)
Theorem undos_then_redos_restore k s :
  (k ≤ length (operations s))%nat →
  operations (undos k s) = take (length (operations s) - k) (operations s) ∧
  redoStack (undos k s)
  = redoStack s ++ reverse (drop (length (operations s) - k) (operations s)) ∧
  redos k (undos k s) = s.
Proof.
  intros Hk. rewrite undos_shape by done. split_and!; [done|done|].
  rewrite <- undos_shape by done. clear -Hk.
  induction k as [|k IH]; [done|].
  rewrite undos_S, redos_S_r. rewrite redo_after_undo; [apply IH; lia|].
  rewrite undos_shape by lia. simpl.
  intros E%(f_equal length). rewrite length_take in E. simpl in E. lia.
Qed.

Lemma undos_then_redos_restore_witness :
  operations (undos 3 three_entries) = [] ∧
  length (redoStack (undos 3 three_entries)) = 3%nat ∧
  is_failure (undo (undos 3 three_entries)).1 = true ∧
  redos 3 (undos 3 three_entries) = three_entries.
Proof.
  destruct (undos_then_redos_restore 3 three_entries) as (_ & _ & H);
    [by vm_compute|].
  split_and!; [by vm_compute..|exact H].
Defined.

End log_more.

Section log_bounds.
Import DrawingState.
Implicit Types (s : DrawingState.t) (h : Heap) (op : Op) (st : Heap * DrawingState.t).

Lemma run_maxOperations c st : maxOperations (run c st).2 = maxOperations st.2.
Proof.
  destruct c as [now operation| | |].
  - by rewrite run_addOperation, addOperation_unfold.
  - apply undo_maxOperations.
  - apply redo_maxOperations.
  - done.
Qed.

Lemma undo_total_length s :
  (length (operations (undo s).2) + length (redoStack (undo s).2)
   = length (operations s) + length (redoStack s))%nat.
Proof.
  destruct (snoc_cases (operations s)) as [E|(rest & op & E)].
  - by rewrite undo_empty.
  - rewrite (undo_nonempty _ _ _ E). simpl. rewrite E, !length_app. simpl. lia.
Qed.

Lemma redo_total_length s :
  (length (operations (redo s).2) + length (redoStack (redo s).2)
   = length (operations s) + length (redoStack s))%nat.
Proof.
  destruct (snoc_cases (redoStack s)) as [E|(rest & op & E)].
  - by rewrite redo_empty.
  - rewrite (redo_nonempty _ _ _ E). simpl. rewrite E, !length_app. simpl. lia.
Qed.

Lemma reachable_total_length st :
  reachable st →
  0 < maxOperations st.2 →
  Z.of_nat (length (operations st.2) + length (redoStack st.2))
  ≤ maxOperations st.2.
Proof.
  induction 1 as [h cap|c st _ IH]; intros Hcap.
  - simpl in *. lia.
  - rewrite run_maxOperations in *. specialize (IH Hcap).
    destruct c as [now operation| | |]; [|simpl..].
    + rewrite run_addOperation, addOperation_unfold. simpl.
      pose proof (kept_length (maxOperations st.2)
                    (operations st.2 ++ [ {| op_addr := next_addr st.1;
                       op_props := op_literal (operationIdCounter st.2 + 1)
                                     now operation |} ]) Hcap).
      lia.
    + rewrite undo_total_length. lia.
    + rewrite redo_total_length. lia.
    + lia.
Qed.

(** On a log built with a positive cap, whatever the calls and the
    payloads, the entries and the undone records together never number
    more than the cap; the entries alone, then, never do. *)
Theorem reachable_within_cap st :
  reachable st →
  0 < maxOperations st.2 →
  Z.of_nat (length (operations st.2) + length (redoStack st.2))
  ≤ maxOperations st.2.
Proof. apply reachable_total_length. Qed.

Lemma capped_run_reachable : reachable capped_run.
Proof. unfold capped_run. repeat apply reachable_run. apply reachable_new. Qed.

Lemma reachable_within_cap_witness :
  maxOperations capped_run.2 = 2 ∧
  Z.of_nat (length (operations capped_run.2) + length (redoStack capped_run.2))
  ≤ maxOperations capped_run.2.
Proof.
  split; [reflexivity|].
  apply (reachable_within_cap capped_run capped_run_reachable). reflexivity.
Defined.

Lemma kept_nonpositive cap (pushed : list Op) :
  cap ≤ 0 → pushed ≠ [] → kept cap pushed = drop (Z.to_nat (- cap)) pushed.
Proof.
  intros Hcap Hne. unfold kept, slice.
  assert (0 < Z.of_nat (length pushed)) by (destruct pushed; [done|simpl; lia]).
  destruct (Z.gtb_spec (Z.of_nat (length pushed)) cap) as [_|?]; [|lia].
  destruct (Z.ltb_spec (- cap) 0) as [?|_]; [lia|].
  destruct (Z.min_spec (- cap) (Z.of_nat (length pushed)))
    as [[_ ->]|[Hle ->]]; [done|].
  rewrite !drop_ge; [done|lia..].
Qed.

(** With a cap that is not positive the truncation runs at every append
    and cuts from the front: with the cap 0 it cuts nothing, with the cap
    [-k] it cuts the [k] oldest of the entries (the new one included when
    there are no more). *)
Theorem addOperation_nonpositive_cap now operation h s :
  maxOperations s ≤ 0 →
  let '(op, _, s') := addOperation now operation h s in
  operations s' = drop (Z.to_nat (- maxOperations s)) (operations s ++ [op]).
Proof.
  intros Hcap. rewrite addOperation_unfold. simpl.
  apply kept_nonpositive; [done|]. by destruct (operations s).
Qed.

Lemma addOperation_nonpositive_cap_witness :
  let '(op, _, s') := addOperation 10 ∅ heap0 negative_cap_log in
  operations s' = [].
Proof.
  pose proof (addOperation_nonpositive_cap 10 ∅ heap0 negative_cap_log) as H.
  destruct (addOperation 10 ∅ heap0 negative_cap_log) as [[op h'] s'].
  rewrite H by (by vm_compute). reflexivity.
Defined.

(** An [undo] right after an append, on a log with a positive cap: the
    entries are the old ones without those the truncation dropped (none,
    when the log was not full), and the new record is the only undone one.
    What the append cut off does not come back. *)
Theorem undo_after_addOperation now operation h s :
  0 < maxOperations s →
  let '(op, _, s') := addOperation now operation h s in
  undo s' =
    (Success (drop (length (operations s) + 1 - Z.to_nat (maxOperations s))
                (operations s)),
     {| operations :=
          drop (length (operations s) + 1 - Z.to_nat (maxOperations s))
            (operations s);
        redoStack := [op];
        maxOperations := maxOperations s;
        operationIdCounter := operationIdCounter s + 1 |}).
Proof.
  intros Hcap. rewrite addOperation_unfold. simpl.
  erewrite undo_nonempty; [reflexivity|]. simpl.
  rewrite kept_positive by done. rewrite length_app. simpl.
  rewrite drop_app_le by lia. done.
Qed.

Lemma undo_after_addOperation_witness :
  let '(op, _, s') := addOperation 13 ∅ heap0 three_entries in
  operations (undo s').2 = operations three_entries ∧
  redoStack (undo s').2 = [op].
Proof.
  pose proof (undo_after_addOperation 13 ∅ heap0 three_entries) as H.
  destruct (addOperation 13 ∅ heap0 three_entries) as [[op h'] s'].
  rewrite H by (by vm_compute). split; reflexivity.
Defined.

(** An append, whatever the payload and the cap, ends what could be
    redone: afterwards [redoStack] is empty, a [redo] fails without
    changing the log, and in a log reached from a new one none of the
    records that were undone is among the entries. *)
Theorem addOperation_forgets_undone now operation st :
  reachable st →
  let st' := run (AddOperation now operation) st in
  redoStack st'.2 = [] ∧
  redo st'.2 = (Failure "Nothing to redo", st'.2) ∧
  ∀ x, x ∈ redoStack st.2 → x ∉ operations st'.2.
Proof.
  intros Hst st'. unfold st'. rewrite run_addOperation, addOperation_unfold.
  simpl. split_and!; [done|done|].
  intros x Hx Hkept.
  destruct (reachable_allocation_order st Hst) as [Hs Hb].
  pose proof (elem_of_sublist _ _ _ Hkept (kept_sublist _ _)) as Hin.
  clear Hkept. apply elem_of_app in Hin as [Hin|Hin].
  - apply elem_of_reverse in Hx.
    pose proof (StronglySorted_app_1_elem_of _ _ _ _ _ Hs Hin Hx) as Hlt.
    unfold addr_lt in Hlt. lia.
  - apply list_elem_of_singleton in Hin as ->.
    rewrite Forall_forall in Hb. unfold timeline in Hb.
    assert (allocated st {| op_addr := next_addr st.1;
                            op_props := op_literal (operationIdCounter st.2 + 1)
                                          now operation |}) as Ha.
    { apply Hb. apply elem_of_app. right. by apply elem_of_reverse. }
    unfold allocated in Ha. simpl in Ha. lia.
Qed.

Lemma addOperation_forgets_undone_witness :
  length (redoStack one_undone.2) = 1%nat ∧
  redoStack (run (AddOperation 12 ∅) one_undone).2 = [] ∧
  ∀ x, x ∈ redoStack one_undone.2 →
       x ∉ operations (run (AddOperation 12 ∅) one_undone).2.
Proof.
  destruct (addOperation_forgets_undone 12 ∅ one_undone one_undone_reachable)
    as (Hre & _ & Hgone).
  split_and!; [reflexivity|exact Hre|exact Hgone].
Defined.

(** [clear] leaves nothing to undo and nothing to redo, and the ids go on
    from where they were: the next record with a payload that has no own
    [id] gets the id after the last one assigned before the [clear]. *)
Theorem clear_keeps_counting s :
  undo (clear s) = (Failure "Nothing to undo", clear s) ∧
  redo (clear s) = (Failure "Nothing to redo", clear s) ∧
  ∀ now operation h,
    operation !! "id" = None →
    op_id (addOperation now operation h (clear s)).1.1
    = VNum (operationIdCounter s + 1).
Proof.
  split_and!; [done|done|].
  intros now operation h Hid. rewrite addOperation_unfold. simpl.
  unfold op_id. simpl. by rewrite op_literal_id, Hid.
Qed.

Lemma clear_keeps_counting_witness :
  op_id (addOperation 20 ∅ heap0 (clear three_entries)).1.1 = VNum 4.
Proof.
  destruct (clear_keeps_counting three_entries) as (_ & _ & H).
  apply (H 20 ∅ heap0). reflexivity.
Defined.

(** The snapshot agrees with what the next calls would do: [canUndo] is
    true exactly when [undo] would succeed, [canRedo] exactly when [redo]
    would, [operationCount] is the number of operations in the snapshot,
    and [lastOperationId] is the id of the record that [undo] would move
    to [redoStack], or [null] when there is none. *)
Theorem getSnapshot_agrees s :
  let snap := getSnapshot s in
  canUndo snap = negb (is_failure (undo s).1) ∧
  canRedo snap = negb (is_failure (redo s).1) ∧
  operationCount snap = length (snap_operations snap) ∧
  snap_operations snap = operations s ∧
  lastOperationId snap
  = (if canUndo snap
     then from_option op_id VUndefined (last (redoStack (undo s).2))
     else VNull).
Proof.
  simpl. split_and!; [| |done|done|].
  - destruct (snoc_cases (operations s)) as [E|(rest & op & E)].
    + by rewrite undo_empty, E.
    + rewrite (undo_nonempty _ _ _ E), E, length_app. simpl.
      apply bool_decide_eq_true_2. lia.
  - destruct (snoc_cases (redoStack s)) as [E|(rest & op & E)].
    + by rewrite redo_empty, E.
    + rewrite (redo_nonempty _ _ _ E), E, length_app. simpl.
      apply bool_decide_eq_true_2. lia.
  - destruct (snoc_cases (operations s)) as [E|(rest & op & E)].
    + by rewrite E.
    + rewrite (undo_nonempty _ _ _ E), E, length_app. simpl.
      rewrite bool_decide_eq_true_2 by lia. by rewrite !last_snoc.
Qed.

End log_bounds.

Section log_ids.
Import DrawingState.
Implicit Types (s : DrawingState.t) (op : Op) (st : Heap * DrawingState.t).

Lemma filter_all {A : Type} (P : A → Prop) `{!∀ x, Decision (P x)} (l : list A) :
  Forall P l → filter P l = l.
Proof.
  induction 1 as [|x l Hx _ IH]; [done|].
  by rewrite filter_cons, decide_True, IH.
Qed.

Lemma ids_ascending_NoDup (l : list Op) :
  ids_ascending l → NoDup (op_id <$> l).
Proof.
  intros [_ Hs]. induction Hs as [|x l _ IH Hx]; [constructor|].
  rewrite fmap_cons. constructor; [|done].
  intros (y & Hy & Hin)%list_elem_of_fmap.
  rewrite Forall_forall in Hx. specialize (Hx y Hin).
  unfold id_lt in Hx. rewrite Hy in Hx. destruct (op_id y); try done. lia.
Qed.

(** As long as no payload has an own [id], whatever the calls: the ids of
    the entries are numbers in strictly increasing order, so no two
    entries share an id; no id is above the counter, on an entry or on an
    undone record; and no id is on an entry and on an undone record. *)
Theorem plain_runs_number_in_order st :
  reachable_plain st →
  ids_ascending (operations st.2) ∧
  NoDup (op_id <$> operations st.2) ∧
  Forall (id_le_num (operationIdCounter st.2))
    (operations st.2 ++ redoStack st.2) ∧
  ∀ a b, a ∈ operations st.2 → b ∈ redoStack st.2 → op_id a ≠ op_id b.
Proof.
  intros Hst. pose proof (reachable_plain_ascending st Hst) as Hasc.
  split_and!; [done|by apply ids_ascending_NoDup| |].
  - destruct (reachable_plain_id_order st Hst) as [_ Hb].
    unfold timeline in Hb. apply Forall_app in Hb as [Hb1 Hb2].
    apply Forall_app. split; [done|].
    apply Forall_forall. intros x Hx. rewrite Forall_forall in Hb2.
    apply Hb2. by apply elem_of_reverse.
  - intros a b. by apply plain_ids_disjoint.
Qed.

Lemma capped_run_plain : reachable_plain capped_run.
Proof.
  unfold capped_run.
  repeat (apply reachable_plain_run; [done|]). apply reachable_plain_new.
Qed.

Lemma plain_runs_number_in_order_witness :
  op_id <$> operations capped_run.2 = [VNum 2] ∧
  op_id <$> redoStack capped_run.2 = [VNum 3] ∧
  ids_ascending (operations capped_run.2) ∧
  NoDup (op_id <$> operations capped_run.2).
Proof.
  destruct (plain_runs_number_in_order capped_run capped_run_plain)
    as (Hasc & Hnd & _).
  split_and!; [reflexivity|reflexivity|exact Hasc|exact Hnd].
Defined.

Context `{rel : !Relational}.

Lemma since_suffix_list (n : Z) (l : list Op) :
  ids_ascending l →
  filter (λ op, js_gt (op_id op) (VNum n)) l `suffix_of` l.
Proof.
  intros [Hnum Hs]. induction Hs as [|x l Hs IH Hx]; [done|].
  apply Forall_cons in Hnum as [Hxn Hnum]. rewrite filter_cons.
  destruct (decide _) as [Hgt|Hgt].
  - rewrite filter_all; [done|].
    apply Forall_forall. intros y Hy.
    rewrite Forall_forall in Hx. specialize (Hx y Hy).
    unfold id_lt, numeric_id in *.
    destruct (op_id x) as [| | |vx| |]; try done.
    destruct (op_id y) as [| | |vy| |]; try done.
    rewrite js_gt_num in *. apply bool_decide_unpack in Hgt.
    apply bool_decide_pack. lia.
  - apply suffix_cons_r. by apply IH.
Qed.

(** On a log whose ids ascend, [getOperationsSince] with a number returns
    a suffix of the entries, the one that starts at the first entry with
    a greater id: every entry before the result has an id at most the
    given one, and every entry of the result a greater one. *)
Theorem getOperationsSince_suffix s (n : Z) :
  ids_ascending (operations s) →
  ∃ older,
    operations s = older ++ getOperationsSince (VNum n) s ∧
    Forall (id_le_num n) older ∧
    Forall (λ op, ∃ x, op_id op = VNum x ∧ n < x)
      (getOperationsSince (VNum n) s).
Proof.
  intros Hasc. destruct (since_suffix_list n _ Hasc) as [older Hold].
  exists older. split; [done|].
  assert (Forall numeric_id (operations s)) as Hnum by apply Hasc.
  split.
  - apply Forall_forall. intros x Hx.
    assert (x ∈ operations s) as Hin by (rewrite Hold; set_solver).
    rewrite Forall_forall in Hnum. specialize (Hnum x Hin).
    destruct (decide (js_gt (op_id x) (VNum n))) as [Hgt|Hgt].
    + exfalso.
      assert (x ∈ getOperationsSince (VNum n) s) as Hr.
      { apply list_elem_of_filter. done. }
      destruct Hasc as [_ Hs]. rewrite Hold in Hs.
      pose proof (StronglySorted_app_1_elem_of _ _ _ _ _ Hs Hx Hr) as Hlt.
      unfold id_lt, numeric_id in *. destruct (op_id x); try done. lia.
    + unfold numeric_id, id_le_num in *.
      destruct (op_id x) as [| | |vx| |]; try done.
      rewrite js_gt_num in Hgt.
      destruct (decide (vx ≤ n)); [done|].
      exfalso. apply Hgt. apply bool_decide_pack. lia.
  - apply Forall_forall. intros x [Hgt Hin]%list_elem_of_filter.
    rewrite Forall_forall in Hnum. specialize (Hnum x Hin).
    unfold numeric_id in Hnum. destruct (op_id x) as [| | |vx| |]; try done.
    exists vx. split; [done|]. rewrite js_gt_num in Hgt.
    by apply bool_decide_unpack in Hgt.
Qed.

End log_ids.

Lemma getOperationsSince_suffix_witness :
  ∃ older,
    DrawingState.operations three_entries
    = older ++ DrawingState.getOperationsSince
                 (rel := DrawingState.numeric_gt) (VNum 1) three_entries ∧
    length older = 1%nat.
Proof.
  destruct (getOperationsSince_suffix (rel := DrawingState.numeric_gt)
              three_entries 1 three_entries_ascending) as (older & E & _ & _).
  exists older. split; [exact E|].
  apply (f_equal length) in E. rewrite length_app in E.
  change (3 = length older + 2)%nat in E. lia.
Defined.

(** * Further properties of maps *)

Section jsmap_more.
Context {K V : Type} `{EqDecision K}.
Implicit Types (m : list (K * V)) (k : K) (v : V).

Lemma get_None_keys k m : JsMap.get k m = None ↔ k ∉ JsMap.keys m.
Proof.
  unfold JsMap.keys. induction m as [|[k' v'] m IH]; simpl.
  - split; [intros _; apply not_elem_of_nil|done].
  - rewrite not_elem_of_cons. destruct (decide (k = k')) as [->|Hne].
    + split; [done|]. by intros [? _].
    + rewrite IH. tauto.
Qed.

Lemma set_absent k v m : JsMap.get k m = None → JsMap.set k v m = m ++ [(k, v)].
Proof.
  induction m as [|[k' v'] m IH]; simpl; [done|].
  destruct (decide (k = k')); [done|]. intros Hget. by rewrite IH.
Qed.

Lemma set_set k v v' m : JsMap.set k v (JsMap.set k v' m) = JsMap.set k v m.
Proof.
  induction m as [|[k0 v0] m IH]; simpl.
  - by rewrite decide_True.
  - destruct (decide (k = k0)) as [->|Hne]; simpl.
    + by rewrite decide_True.
    + by rewrite decide_False, IH.
Qed.

Lemma set_same k v m : JsMap.get k m = Some v → JsMap.set k v m = m.
Proof.
  induction m as [|[k0 v0] m IH]; simpl; [done|].
  destruct (decide (k = k0)) as [->|Hne].
  - by intros [= ->].
  - intros Hget. by rewrite IH.
Qed.

Lemma delete_absent k m : JsMap.get k m = None → JsMap.delete k m = m.
Proof.
  intros Hget. unfold JsMap.delete. apply filter_all.
  apply Forall_forall. intros [k' v'] Hin Heq. simpl in Heq. subst k'.
  apply get_None_keys in Hget. apply Hget.
  unfold JsMap.keys. apply list_elem_of_fmap. by exists (k, v').
Qed.

Lemma delete_set_absent k v m :
  JsMap.get k m = None → JsMap.delete k (JsMap.set k v m) = m.
Proof.
  intros Hget. rewrite set_absent by done. unfold JsMap.delete.
  rewrite filter_app, filter_cons. simpl. rewrite decide_False by tauto.
  rewrite filter_nil, app_nil_r. by apply delete_absent.
Qed.

Lemma keys_set k v m :
  JsMap.keys (JsMap.set k v m)
  = if decide (is_Some (JsMap.get k m)) then JsMap.keys m
    else JsMap.keys m ++ [k].
Proof.
  unfold JsMap.keys. induction m as [|[k0 v0] m IH].
  - cbn [JsMap.get JsMap.set fmap list_fmap fst app].
    by case_decide as Hs; [destruct Hs|].
  - cbn [JsMap.get JsMap.set]. destruct (decide (k = k0)) as [->|Hne].
    + clear IH. destruct (decide (is_Some (Some v0))) as [_|Hn]; [done|].
      exfalso. apply Hn. eauto.
    + rewrite fmap_cons, IH.
      by destruct (decide (is_Some (JsMap.get k m))).
Qed.

Lemma keys_delete k m :
  JsMap.keys (JsMap.delete k m) = filter (λ k', k' ≠ k) (JsMap.keys m).
Proof.
  unfold JsMap.keys, JsMap.delete. induction m as [|[k0 v0] m IH]; [done|].
  rewrite fmap_cons, !filter_cons. cbn [fst].
  destruct (decide (k0 ≠ k)); [rewrite fmap_cons; cbn [fst]|]; by rewrite IH.
Qed.

Lemma NoDup_keys_set k v m :
  NoDup (JsMap.keys m) → NoDup (JsMap.keys (JsMap.set k v m)).
Proof.
  intros Hnd. rewrite keys_set. destruct (decide _) as [Hs|Hn]; [done|].
  apply NoDup_app. split_and!; [done| |apply NoDup_singleton].
  intros x Hx ->%list_elem_of_singleton. apply Hn.
  destruct (JsMap.get k m) eqn:E; [eauto|]. by apply get_None_keys in E.
Qed.

Lemma NoDup_keys_delete k m :
  NoDup (JsMap.keys m) → NoDup (JsMap.keys (JsMap.delete k m)).
Proof. intros Hnd. rewrite keys_delete. by apply NoDup_filter. Qed.

Lemma elem_of_set k v k' v' m :
  (k', v') ∈ JsMap.set k v m → (k', v') = (k, v) ∨ (k', v') ∈ m.
Proof.
  induction m as [|[k0 v0] m IH]; simpl.
  - intros ->%list_elem_of_singleton. by left.
  - destruct (decide (k = k0)) as [->|Hne].
    + intros [->|Hin]%elem_of_cons; [by left|]. right. by right.
    + intros [->|Hin]%elem_of_cons; [right; by left|].
      destruct (IH Hin) as [?|?]; [by left|]. right. by right.
Qed.

Lemma elem_of_delete k k' v' m :
  (k', v') ∈ JsMap.delete k m → (k', v') ∈ m.
Proof. unfold JsMap.delete. by intros [_ ?]%list_elem_of_filter. Qed.

Lemma elem_of_get k v m : NoDup (JsMap.keys m) → (k, v) ∈ m → JsMap.get k m = Some v.
Proof.
  unfold JsMap.keys. induction m as [|[k0 v0] m IH]; simpl.
  - by intros _ ?%elem_of_nil.
  - intros [Hk0 Hnd]%NoDup_cons [[= -> ->]|Hin]%elem_of_cons.
    + by rewrite decide_True.
    + destruct (decide (k = k0)) as [->|Hne]; [|by apply IH].
      exfalso. apply Hk0. apply list_elem_of_fmap. by exists (k0, v).
Qed.

Lemma size_set k v m :
  JsMap.size (JsMap.set k v m)
  = if JsMap.has k m then JsMap.size m else S (JsMap.size m).
Proof.
  unfold JsMap.size, JsMap.has. induction m as [|[k0 v0] m IH]; [done|].
  cbn [JsMap.set JsMap.get]. destruct (decide (k = k0)) as [->|Hne]; [done|].
  cbn [length]. rewrite IH. by destruct (bool_decide _).
Qed.

End jsmap_more.

(** * Further properties of the room registry *)

Section rooms_more.
Import RoomManager.
Implicit Types (m : RoomManager.t) (room : Room) (roomId userId r u k : string).

Lemma with_rooms_same m : with_rooms m (rooms m) = m.
Proof. by destruct m. Qed.

Lemma with_users_same room : with_users room (users room) = room.
Proof. by destruct room. Qed.

Lemma with_users_twice room us us' :
  with_users (with_users room us) us' = with_users room us'.
Proof. done. Qed.

Lemma with_rooms_twice m rs rs' :
  with_rooms (with_rooms m rs) rs' = with_rooms m rs'.
Proof. done. Qed.

Lemma getOrCreateRoom_get now r m :
  getRoom r (getOrCreateRoom now r m).2 = Some (getOrCreateRoom now r m).1.
Proof.
  unfold getOrCreateRoom. destruct (getRoom r m) as [room|] eqn:E; [done|].
  unfold createRoom. unfold getRoom in E. rewrite E. simpl.
  unfold getRoom. simpl. apply get_set_eq.
Qed.

Lemma createRoom_Some now r m room :
  getRoom r m = Some room → createRoom now r m = (room, m).
Proof. unfold getRoom, createRoom. by intros ->. Qed.

Lemma createRoom_None now r m :
  getRoom r m = None →
  createRoom now r m =
    (let fresh := {| id := r; users := [];
                     drawingState := DrawingState.constructor None;
                     createdAt := now |} in
     (fresh, with_rooms m (JsMap.set r fresh (rooms m)))).
Proof. unfold getRoom, createRoom. by intros ->. Qed.

(** [createRoom] on an id that is registered returns the room there is and
    changes nothing: its users and its log stay.  On an id that is not, it
    registers, last in the list of ids, a room with that id, no users, a
    new log with the default cap, and the clock as [createdAt].  A second
    [createRoom] on the same id is the first case. *)
Theorem createRoom_once now now' r m :
  match getRoom r m with
  | Some room => createRoom now r m = (room, m)
  | None =>
      let fresh := {| id := r; users := [];
                      drawingState := DrawingState.constructor None;
                      createdAt := now |} in
      (createRoom now r m).1 = fresh ∧
      getRoom r (createRoom now r m).2 = Some fresh ∧
      getAllRoomIds (createRoom now r m).2 = getAllRoomIds m ++ [r]
  end ∧
  createRoom now' r (createRoom now r m).2 = createRoom now r m.
Proof.
  destruct (getRoom r m) as [room|] eqn:E.
  - rewrite (createRoom_Some _ _ _ _ E). split; [done|].
    by apply createRoom_Some.
  - rewrite (createRoom_None _ _ _ E). cbn [fst snd]. split.
    + split_and!; [done|apply get_set_eq|].
      unfold getAllRoomIds. cbn [rooms with_rooms]. rewrite keys_set.
      unfold getRoom in E. rewrite E.
      by destruct (decide (is_Some None)) as [[? ?]|].
    + apply createRoom_Some. apply get_set_eq.
Qed.

(** A call about one room leaves every other room as it was. *)
Theorem other_rooms_untouched c m k :
  k ≠ target c → getRoom k (run c m) = getRoom k m.
Proof.
  intros Hk. unfold getRoom.
  destruct c as [now r|now r|nr nj r u ui|r u|r|r f]; simpl in *.
  - unfold createRoom. destruct (JsMap.get r (rooms m)); [done|].
    simpl. by rewrite get_set_ne.
  - unfold getOrCreateRoom, getRoom, createRoom.
    destruct (JsMap.get r (rooms m)); [done|]. simpl. by rewrite get_set_ne.
  - unfold addUserToRoom, getOrCreateRoom, getRoom, createRoom.
    destruct (JsMap.get r (rooms m)); simpl; by rewrite !get_set_ne.
  - unfold removeUserFromRoom, getRoom, deleteRoom.
    destruct (JsMap.get r (rooms m)); [|done].
    case_decide; simpl; [|by rewrite get_set_ne].
    case_decide; simpl; [|by rewrite get_set_ne].
    by rewrite get_delete_ne, get_set_ne.
  - unfold deleteRoom. case_decide; [|done]. simpl. by rewrite get_delete_ne.
  - unfold getRoom. destruct (JsMap.get r (rooms m)); [|done].
    simpl. by rewrite get_set_ne.
Qed.

Lemma other_rooms_untouched_witness :
  getRoom "default" (run (RemoveUserFromRoom "r1" "u1") two_rooms)
  = getRoom "default" two_rooms ∧
  getRoom "r1" (run (RemoveUserFromRoom "r1" "u1") two_rooms) = None.
Proof.
  split; [|reflexivity].
  apply (other_rooms_untouched (RemoveUserFromRoom "r1" "u1") two_rooms).
  done.
Defined.

(** After [addUserToRoom] the room is registered, and in it the user id
    maps to the [userInfo] with [joinedAt] set to the clock: the transport
    is the one given, and a [joinedAt] the caller supplied is replaced.
    The other users of the room and its log are as before; the number of
    users grows by one when the id was not there and stays otherwise. *)
Theorem addUserToRoom_registers nowRoom nowJoin r u (userInfo : UserInfo) m :
  let before := (getOrCreateRoom nowRoom r m).1 in
  ∃ room,
    getRoom r (addUserToRoom nowRoom nowJoin r u userInfo m) = Some room ∧
    JsMap.get u (users room) = Some (user_literal userInfo nowJoin) ∧
    ui_ws (user_literal userInfo nowJoin) = ui_ws userInfo ∧
    prop (ui_props (user_literal userInfo nowJoin)) "joinedAt" = VNum nowJoin ∧
    (∀ u', u ≠ u' → JsMap.get u' (users room) = JsMap.get u' (users before)) ∧
    drawingState room = drawingState before ∧
    JsMap.size (users room)
    = (if JsMap.has u (users before) then JsMap.size (users before)
       else S (JsMap.size (users before))) ∧
    user_literal userInfo nowJoin
    ∈ getRoomUsers r (addUserToRoom nowRoom nowJoin r u userInfo m).
Proof.
  intros before. unfold addUserToRoom, before.
  destruct (getOrCreateRoom nowRoom r m) as [room0 m1]. simpl.
  exists (with_users room0
            (JsMap.set u (user_literal userInfo nowJoin) (users room0))).
  assert (getRoom r (with_rooms m1 (JsMap.set r
            (with_users room0
               (JsMap.set u (user_literal userInfo nowJoin) (users room0)))
            (rooms m1)))
          = Some (with_users room0
            (JsMap.set u (user_literal userInfo nowJoin) (users room0)))) as Hget.
  { unfold getRoom. simpl. apply get_set_eq. }
  split_and!; [done|apply get_set_eq|done| |by intros; apply get_set_ne|done| |].
  - unfold prop, user_literal. simpl. by rewrite lookup_insert_eq.
  - simpl. apply size_set.
  - unfold getRoomUsers. rewrite Hget. simpl. unfold JsMap.values.
    apply list_elem_of_fmap. exists (u, user_literal userInfo nowJoin).
    split; [done|]. apply get_elem_of, get_set_eq.
Qed.

End rooms_more.

Section rooms_lifecycle.
Import RoomManager.
Implicit Types (m : RoomManager.t) (room : Room) (roomId userId r u k : string).

Lemma addUserToRoom_Some nowRoom nowJoin r u (userInfo : UserInfo) m room :
  getRoom r m = Some room →
  addUserToRoom nowRoom nowJoin r u userInfo m
  = with_rooms m
      (JsMap.set r
         (with_users room
            (JsMap.set u (user_literal userInfo nowJoin) (users room)))
         (rooms m)).
Proof. intros E. unfold addUserToRoom, getOrCreateRoom. by rewrite E. Qed.

Lemma addUserToRoom_None nowRoom nowJoin r u (userInfo : UserInfo) m :
  getRoom r m = None →
  addUserToRoom nowRoom nowJoin r u userInfo m
  = with_rooms m
      (JsMap.set r
         {| id := r; users := [(u, user_literal userInfo nowJoin)];
            drawingState := DrawingState.constructor None;
            createdAt := nowRoom |}
         (rooms m)).
Proof.
  intros E. unfold addUserToRoom, getOrCreateRoom.
  rewrite E, (createRoom_None _ _ _ E). simpl.
  by rewrite with_rooms_twice, set_set.
Qed.

Lemma removeUserFromRoom_Some r u m room :
  getRoom r m = Some room →
  removeUserFromRoom r u m =
    (let room' := with_users room (JsMap.delete u (users room)) in
     let m1 := with_rooms m (JsMap.set r room' (rooms m)) in
     if decide (JsMap.size (users room') = 0%nat ∧ r ≠ defaultRoomId m)
     then deleteRoom r m1 else m1).
Proof. intros E. unfold removeUserFromRoom. by rewrite E. Qed.

(** A join followed by the leave of the same user gives the registry back
    as it was, in two cases: the room was not registered and is not the
    default room (the join creates it and the leave deletes it), or the
    room was registered without that user and either has other users or
    is the default room. *)
Theorem join_then_leave nowRoom nowJoin r u (userInfo : UserInfo) m :
  (getRoom r m = None ∧ r ≠ defaultRoomId m) ∨
  (∃ room, getRoom r m = Some room ∧ JsMap.get u (users room) = None ∧
           (users room ≠ [] ∨ r = defaultRoomId m)) →
  removeUserFromRoom r u (addUserToRoom nowRoom nowJoin r u userInfo m) = m.
Proof.
  intros [[Hnone Hr]|(room & Hroom & Hu & Hkeep)].
  - rewrite (addUserToRoom_None _ _ _ _ _ _ Hnone).
    erewrite removeUserFromRoom_Some by (unfold getRoom; simpl; apply get_set_eq).
    cbn [users with_users rooms with_rooms defaultRoomId].
    rewrite delete_only, set_set. simpl.
    rewrite decide_True by done. unfold deleteRoom. simpl.
    rewrite decide_True by done. simpl.
    rewrite delete_set_absent by done.
    rewrite ?with_rooms_twice. apply with_rooms_same.
  - rewrite (addUserToRoom_Some _ _ _ _ _ _ _ Hroom).
    erewrite removeUserFromRoom_Some by (unfold getRoom; simpl; apply get_set_eq).
    cbn [users with_users rooms with_rooms defaultRoomId].
    rewrite !delete_set_absent by done.
    rewrite !with_users_twice, !with_rooms_twice, set_set.
    rewrite with_users_same, set_same by done.
    rewrite decide_False; [apply with_rooms_same|].
    intros [Hsize Hne]. destruct Hkeep as [Hkeep|Hkeep]; [|done].
    by destruct (users room).
Qed.

Lemma join_then_leave_witness :
  removeUserFromRoom "r2" "u9"
    (addUserToRoom 8 9 "r2" "u9" (info 9 1) two_rooms) = two_rooms ∧
  removeUserFromRoom "r1" "u9"
    (addUserToRoom 8 9 "r1" "u9" (info 9 1) two_rooms) = two_rooms.
Proof.
  split.
  - apply (join_then_leave 8 9 "r2" "u9" (info 9 1) two_rooms).
    left. by split.
  - apply (join_then_leave 8 9 "r1" "u9" (info 9 1) two_rooms).
    right. eexists. split_and!; [reflexivity|reflexivity|]. by left.
Defined.

(** Removing a user that is not in the room changes nothing, with one
    exception: when the room has no users and is not the default room,
    the call deletes the room.  On an id that is not registered the call
    changes nothing. *)
Theorem removeUserFromRoom_absent r u m :
  match getRoom r m with
  | None => removeUserFromRoom r u m = m
  | Some room =>
      JsMap.get u (users room) = None →
      if decide (JsMap.size (users room) = 0%nat ∧ r ≠ defaultRoomId m)
      then getRoom r (removeUserFromRoom r u m) = None
      else removeUserFromRoom r u m = m
  end.
Proof.
  destruct (getRoom r m) as [room|] eqn:E.
  - intros Hu. rewrite (removeUserFromRoom_Some _ _ _ _ E).
    cbn [users with_users]. rewrite delete_absent by done.
    rewrite with_users_same, set_same by done. rewrite with_rooms_same.
    case_decide as Hd; [|done].
    unfold deleteRoom, getRoom. rewrite decide_True by tauto. simpl.
    apply get_delete_eq.
  - unfold removeUserFromRoom. by rewrite E.
Qed.

Lemma removeUserFromRoom_absent_witness :
  getRoom "r1" empty_room ≠ None ∧
  getRoom "r1" (removeUserFromRoom "r1" "nobody" empty_room) = None ∧
  removeUserFromRoom "r1" "nobody" two_rooms = two_rooms.
Proof.
  pose proof (removeUserFromRoom_absent "r1" "nobody" empty_room) as H1.
  pose proof (removeUserFromRoom_absent "r1" "nobody" two_rooms) as H2.
  split_and!; [done|exact (H1 eq_refl)|exact (H2 eq_refl)].
Defined.

(** [deleteRoom] on the default id changes nothing.  On any other id it
    leaves no room under it, whether or not the room had users: the
    lookups of that id give [null], no users and no statistics, and the id
    is not listed; the other rooms stay. *)
Theorem deleteRoom_discards r m :
  if decide (r = defaultRoomId m) then deleteRoom r m = m
  else
    getRoom r (deleteRoom r m) = None ∧
    getRoomUsers r (deleteRoom r m) = [] ∧
    getRoomStats r (deleteRoom r m) = None ∧
    (r ∉ getAllRoomIds (deleteRoom r m)) ∧
    (∀ k, k ≠ r → getRoom k (deleteRoom r m) = getRoom k m).
Proof.
  unfold deleteRoom. case_decide as Hd.
  - by rewrite decide_False by tauto.
  - rewrite decide_True by done.
    assert (getRoom r (with_rooms m (JsMap.delete r (rooms m))) = None) as Hget.
    { unfold getRoom. simpl. apply get_delete_eq. }
    unfold getRoomUsers, getRoomStats. rewrite Hget. split_and!; try done.
    + unfold getAllRoomIds. simpl. by apply get_None_keys, get_delete_eq.
    + intros k Hk. unfold getRoom. simpl. by apply get_delete_ne.
Qed.

(** The history of a room ends with the room: when the only user of a
    room other than the default one leaves and a user joins under the
    same id afterwards, the room there is then has a new, empty log, the
    clock of the join as [createdAt], and that user alone. *)
Theorem rejoin_finds_new_log nowRoom nowJoin r u u' (old : UserInfo)
    (userInfo : UserInfo) m room :
  getRoom r m = Some room →
  users room = [(u, old)] →
  r ≠ defaultRoomId m →
  getRoom r (addUserToRoom nowRoom nowJoin r u' userInfo
               (removeUserFromRoom r u m))
  = Some {| id := r;
            users := [(u', user_literal userInfo nowJoin)];
            drawingState := DrawingState.constructor None;
            createdAt := nowRoom |}.
Proof.
  intros Hroom Hu Hr.
  pose proof (removeUserFromRoom_last r u m room old Hroom Hu) as Hgone.
  rewrite decide_False in Hgone by done.
  rewrite (addUserToRoom_None _ _ _ _ _ _ Hgone).
  unfold getRoom. simpl. apply get_set_eq.
Qed.

Lemma drawn_room_log :
  ∃ room, getRoom "r1" drawn_room = Some room ∧
          length (DrawingState.operations (drawingState room)) = 1%nat ∧
          users room = [("u1", user_literal (info 1 1) 4)].
Proof. eexists. split_and!; reflexivity. Qed.

Lemma rejoin_finds_new_log_witness :
  ∃ room,
    getRoom "r1" (addUserToRoom 8 9 "r1" "u2" (info 2 1)
                    (removeUserFromRoom "r1" "u1" drawn_room)) = Some room ∧
    DrawingState.operations (drawingState room) = [].
Proof.
  destruct drawn_room_log as (room & Hroom & _ & Hu).
  eexists. split.
  - apply (rejoin_finds_new_log 8 9 "r1" "u1" "u2" _ (info 2 1) drawn_room room
             Hroom Hu). done.
  - reflexivity.
Defined.

End rooms_lifecycle.

Section rooms_invariant.
Import RoomManager.
Implicit Types (m : RoomManager.t) (room : Room) (roomId userId r u k : string).

Lemma well_formed_get m r room :
  well_formed m → getRoom r m = Some room →
  id room = r ∧ NoDup (JsMap.keys (users room)).
Proof. intros [_ Hw] Hget. apply Hw. by apply get_elem_of. Qed.

Lemma well_formed_set m r room :
  well_formed m → id room = r → NoDup (JsMap.keys (users room)) →
  well_formed (with_rooms m (JsMap.set r room (rooms m))).
Proof.
  intros [Hnd Hw] Hid Hus. split; simpl.
  - by apply NoDup_keys_set.
  - intros k room' [[= -> ->]|Hin]%elem_of_set; [done|by apply Hw].
Qed.

Lemma well_formed_delete m r :
  well_formed m → well_formed (with_rooms m (JsMap.delete r (rooms m))).
Proof.
  intros [Hnd Hw]. split; simpl.
  - by apply NoDup_keys_delete.
  - intros k room' Hin%elem_of_delete. by apply Hw.
Qed.

Lemma well_formed_createRoom now r m :
  well_formed m → well_formed (createRoom now r m).2.
Proof.
  intros Hw. destruct (getRoom r m) as [room|] eqn:E.
  - by rewrite (createRoom_Some _ _ _ _ E).
  - rewrite (createRoom_None _ _ _ E). simpl.
    apply well_formed_set; [done|done|constructor].
Qed.

Lemma well_formed_deleteRoom r m : well_formed m → well_formed (deleteRoom r m).
Proof.
  intros Hw. unfold deleteRoom. case_decide; [|done]. by apply well_formed_delete.
Qed.

Lemma well_formed_run c m : well_formed m → well_formed (run c m).
Proof.
  intros Hw. destruct c as [now r|now r|nr nj r u ui|r u|r|r f]; simpl.
  - by apply well_formed_createRoom.
  - unfold getOrCreateRoom. destruct (getRoom r m); [done|].
    by apply well_formed_createRoom.
  - destruct (getRoom r m) as [room|] eqn:E.
    + rewrite (addUserToRoom_Some _ _ _ _ _ _ _ E).
      destruct (well_formed_get _ _ _ Hw E) as [Hid Hus].
      apply well_formed_set; [done|done|]. simpl. by apply NoDup_keys_set.
    + rewrite (addUserToRoom_None _ _ _ _ _ _ E).
      apply well_formed_set; [done|done|]. simpl. apply NoDup_singleton.
  - destruct (getRoom r m) as [room|] eqn:E.
    + rewrite (removeUserFromRoom_Some _ _ _ _ E). cbv zeta.
      destruct (well_formed_get _ _ _ Hw E) as [Hid Hus].
      assert (well_formed
                (with_rooms m
                   (JsMap.set r (with_users room (JsMap.delete u (users room)))
                      (rooms m)))) as Hw1.
      { apply well_formed_set; [done|done|]. simpl. by apply NoDup_keys_delete. }
      case_decide; [|done]. by apply well_formed_deleteRoom.
    + unfold removeUserFromRoom. by rewrite E.
  - by apply well_formed_deleteRoom.
  - destruct (getRoom r m) as [room|] eqn:E; [|done].
    destruct (well_formed_get _ _ _ Hw E) as [Hid Hus].
    by apply well_formed_set.
Qed.

(** In a registry reached from a new one: no room id is listed twice;
    [getRoom] finds every room of the list under its key, and the room it
    finds has that key as its [id]; no user is listed twice in a room, so
    the [userCount] of the statistics counts distinct user ids. *)
Theorem registry_well_formed m :
  reachable m →
  NoDup (getAllRoomIds m) ∧
  (∀ k room, (k, room) ∈ rooms m → getRoom k m = Some room) ∧
  (∀ k room, getRoom k m = Some room →
     id room = k ∧
     NoDup (JsMap.keys (users room)) ∧
     ∃ stats, getRoomStats k m = Some stats ∧
              stats_id stats = k ∧
              userCount stats = length (getRoomUsers k m) ∧
              userCount stats = size (list_to_set (C := gset string)
                                        (JsMap.keys (users room)))).
Proof.
  intros Hm.
  assert (well_formed m) as Hw.
  { induction Hm as [now|c m _ IH]; [|by apply well_formed_run].
    split; simpl.
    - apply NoDup_singleton.
    - intros k room [= -> ->]%list_elem_of_singleton.
      split; [done|constructor]. }
  split_and!.
  - apply Hw.
  - intros k room Hin. unfold getRoom. apply elem_of_get; [apply Hw|done].
  - intros k room Hget. destruct (well_formed_get _ _ _ Hw Hget) as [Hid Hus].
    split_and!; [done|done|].
    unfold getRoomStats, getRoomUsers. rewrite Hget. eexists. split; [done|].
    simpl. split_and!; [done| |].
    + unfold JsMap.size, JsMap.values. by rewrite length_fmap.
    + rewrite size_list_to_set by done.
      unfold JsMap.size, JsMap.keys. by rewrite length_fmap.
Qed.

Lemma registry_well_formed_witness :
  getAllRoomIds two_rooms = ["default"; "r1"] ∧
  NoDup (getAllRoomIds two_rooms).
Proof.
  split; [reflexivity|].
  apply (registry_well_formed two_rooms two_rooms_reachable).
Defined.

End rooms_invariant.

(** * Further properties of the connection handler *)

Section server_more.
Import Server.
Variable stringify : Message → string.
Implicit Types (s : Server.t) (us : list (string * User)).

(** The dispatch of a parsed message, case by case. *)
Lemma on_message_cases now userId data s :
  let r := on_message stringify now userId (Some data) s in
  (prop data "type" = VStr "draw" ∧
   r = handleDraw stringify now userId (prop data "data") s) ∨
  (prop data "type" = VStr "cursor" ∧ r = handleCursor stringify userId data s) ∨
  (prop data "type" = VStr "undo" ∧ r = handleUndo stringify s) ∨
  (prop data "type" = VStr "redo" ∧ r = handleRedo stringify s) ∨
  (prop data "type" = VStr "clear" ∧ r = handleClear stringify s) ∨
  ((∀ ty, prop data "type" = VStr ty → ty ∉ handled_types) ∧ r = ([], s)).
Proof.
  unfold on_message, handled_types.
  destruct (prop data "type") as [| | | |ty|];
    try (do 5 right; split; [intros ? [=]|done]).
  repeat (match goal with
          | |- context [match ?x with _ => _ end] => destruct x
          end;
          try (do 5 right; split; [|done]; intros ty' [= <-] Hin;
               repeat (apply elem_of_cons in Hin as [Hin|Hin];
                       [discriminate Hin|]);
               by apply elem_of_nil in Hin)).
  all: first [ by left | right; by left | do 2 right; by left
             | do 3 right; by left | do 4 right; by left ].
Qed.

(** What the handler does with a message it has no case for, or could
    not parse: nothing is sent and nothing changes. *)
Theorem unhandled_messages_ignored now userId parsed s :
  match parsed with
  | None => True
  | Some data => ∀ ty, prop data "type" = VStr ty → ty ∉ handled_types
  end →
  on_message stringify now userId parsed s = ([], s).
Proof.
  destruct parsed as [data|]; [|done]. intros Hty.
  assert (∀ ty, prop data "type" = VStr ty → ty ∈ handled_types → False) as Hno.
  { intros ty E. by apply Hty. }
  destruct (on_message_cases now userId data s)
    as [[E _]|[[E _]|[[E _]|[[E _]|[[E _]|[_ E]]]]]]; [..|done];
    exfalso; apply (Hno _ E); unfold handled_types; set_solver.
Qed.

Lemma handleUndo_spec s :
  handleUndo stringify s =
    match DrawingState.operations (drawingState s) with
    | [] => ([], s)
    | _ :: _ =>
        let d' := (DrawingState.undo (drawingState s)).2 in
        (broadcast stringify (Undo (DrawingState.operations d')) None
           (with_drawingState s (heap s) d'),
         with_drawingState s (heap s) d')
    end.
Proof.
  unfold handleUndo.
  destruct (snoc_cases (DrawingState.operations (drawingState s)))
    as [E|(rest & op & E)].
  - rewrite undo_empty, E by done. by destruct s.
  - rewrite (undo_nonempty _ _ _ E), E. by destruct rest.
Qed.

Lemma handleRedo_spec s :
  handleRedo stringify s =
    match DrawingState.redoStack (drawingState s) with
    | [] => ([], s)
    | _ :: _ =>
        let d' := (DrawingState.redo (drawingState s)).2 in
        (broadcast stringify (Redo (DrawingState.operations d')) None
           (with_drawingState s (heap s) d'),
         with_drawingState s (heap s) d')
    end.
Proof.
  unfold handleRedo.
  destruct (snoc_cases (DrawingState.redoStack (drawingState s)))
    as [E|(rest & op & E)].
  - rewrite redo_empty, E by done. by destruct s.
  - rewrite (redo_nonempty _ _ _ E), E. by destruct rest.
Qed.

(** An "undo" message with nothing to undo, and a "redo" message with
    nothing to redo, send nothing and change nothing.  Otherwise the log
    is the one after the [undo] (the [redo]), nothing else of the state
    changes, and every session with an open transport, the sender
    included, is sent the entries that the log then has. *)
Theorem undo_redo_messages now sender data s :
  (prop data "type" = VStr "undo" →
   let r := on_message stringify now sender (Some data) s in
   match DrawingState.operations (drawingState s) with
   | [] => r = ([], s)
   | _ :: _ =>
       let d' := (DrawingState.undo (drawingState s)).2 in
       r.2 = with_drawingState s (heap s) d' ∧
       r.1 = Stringify (Undo (DrawingState.operations d')) ::
             ((λ sock, Send (ws_id sock)
                         (stringify (Undo (DrawingState.operations d'))))
                <$> recipients None (users s))
   end) ∧
  (prop data "type" = VStr "redo" →
   let r := on_message stringify now sender (Some data) s in
   match DrawingState.redoStack (drawingState s) with
   | [] => r = ([], s)
   | _ :: _ =>
       let d' := (DrawingState.redo (drawingState s)).2 in
       r.2 = with_drawingState s (heap s) d' ∧
       r.1 = Stringify (Redo (DrawingState.operations d')) ::
             ((λ sock, Send (ws_id sock)
                         (stringify (Redo (DrawingState.operations d'))))
                <$> recipients None (users s))
   end).
Proof.
  split; intros Hty r; unfold r, on_message; rewrite Hty.
  - rewrite handleUndo_spec.
    destruct (DrawingState.operations (drawingState s)); [done|].
    cbn [fst snd]. split; [done|]. by rewrite broadcast_delivers.
  - rewrite handleRedo_spec.
    destruct (DrawingState.redoStack (drawingState s)); [done|].
    cbn [fst snd]. split; [done|]. by rewrite broadcast_delivers.
Qed.

(** A "clear" message empties the entries and the undone records of the
    log, keeps its id counter, and sends the clear event to every session
    with an open transport, the sender included; an "undo" or a "redo"
    message after it sends nothing. *)
Theorem clear_message now sender data s :
  prop data "type" = VStr "clear" →
  let r := on_message stringify now sender (Some data) s in
  DrawingState.operations (drawingState r.2) = [] ∧
  DrawingState.redoStack (drawingState r.2) = [] ∧
  DrawingState.operationIdCounter (drawingState r.2)
  = DrawingState.operationIdCounter (drawingState s) ∧
  users r.2 = users s ∧
  r.1 = Stringify Clear ::
        ((λ sock, Send (ws_id sock) (stringify Clear))
           <$> recipients None (users s)) ∧
  handleUndo stringify r.2 = ([], r.2) ∧
  handleRedo stringify r.2 = ([], r.2).
Proof.
  intros Hty r. unfold r, on_message. rewrite Hty. unfold handleClear.
  cbn [fst snd].
  split_and!; try done;
    rewrite ?broadcast_delivers, ?handleUndo_spec, ?handleRedo_spec; done.
Qed.

End server_more.

Section server_log.
Import Server.
Variable stringify : Message → string.
Implicit Types (s : Server.t) (us : list (string * User)).

Lemma draw_payload_plain userId drawData :
  draw_payload userId drawData !! "id" = None.
Proof. unfold draw_payload. by simplify_map_eq. Qed.

(** Every event leaves the log alone or makes one call on it. *)
Lemma step_log e s :
  let s' := (step stringify e s).2 in
  (heap s', drawingState s') = (heap s, drawingState s) ∨
  ∃ c, DrawingState.plain c ∧ draw_call c ∧
       (heap s', drawingState s') = DrawingState.run c (heap s, drawingState s).
Proof.
  destruct e as [sock i j k|now userId parsed|userId|userId st]; simpl.
  - by left.
  - destruct parsed as [data|]; [|by left].
    destruct (on_message_cases stringify now userId data s)
      as [[_ ->]|[[_ ->]|[[_ ->]|[[_ ->]|[[_ ->]|[_ ->]]]]]].
    + right. exists (DrawingState.AddOperation now
                       (draw_payload userId (prop data "data"))).
      split_and!; [apply draw_payload_plain|by eexists _, _|].
      unfold handleDraw. rewrite run_addOperation, addOperation_unfold. done.
    + by left.
    + right. exists DrawingState.CallUndo. split_and!; [done..|].
      unfold handleUndo. simpl.
      by destruct (DrawingState.undo (drawingState s)) as [[?|?] ?].
    + right. exists DrawingState.CallRedo. split_and!; [done..|].
      unfold handleRedo. simpl.
      by destruct (DrawingState.redo (drawingState s)) as [[?|?] ?].
    + right. exists DrawingState.CallClear. by split_and!.
    + by left.
  - by left.
  - left. unfold socket_state. by destruct (JsMap.get _ _).
Qed.

Lemma reachable_plain_reachable st :
  DrawingState.reachable_plain st → DrawingState.reachable st.
Proof.
  induction 1; [apply DrawingState.reachable_new|].
  by apply DrawingState.reachable_run.
Qed.

Lemma server_log_plain s :
  reachable stringify s →
  DrawingState.reachable_plain (heap s, drawingState s).
Proof.
  induction 1 as [h|e s _ IH]; [apply DrawingState.reachable_plain_new|].
  destruct (step_log e s) as [->|(c & Hp & _ & ->)]; [done|].
  by apply DrawingState.reachable_plain_run.
Qed.

Lemma server_log_draws s :
  reachable stringify s →
  Forall draw_record (DrawingState.timeline (drawingState s)).
Proof.
  intros Hs.
  cut (DrawingState.timeline_sorted (λ _ _, True) (λ _ op, draw_record op)
         (heap s, drawingState s)); [by intros [_ ?]|].
  induction Hs as [h|e s _ IH]; [split; constructor|].
  destruct (step_log e s) as [->|(c & _ & Hc & ->)]; [done|].
  apply (timeline_sorted_run _ _ draw_call); [done| |done|done].
  intros now operation st (userId & drawData & ->).
  rewrite addOperation_unfold. simpl. split; [|done].
  unfold draw_record, DrawingState.numeric_id, DrawingState.op_id. simpl.
  rewrite op_literal_id, draw_payload_plain. simpl. split_and!; [| |done].
  - apply op_literal_payload. unfold draw_payload. by simplify_map_eq.
  - exists userId. apply op_literal_payload. unfold draw_payload.
    by simplify_map_eq.
Qed.

(** Through the server the log never sees a payload with an own [id]:
    whatever the events, the ids of the entries are the assigned ones, in
    strictly increasing order and so distinct; every record on the log was
    made from a draw message; the entries and the undone records together
    are at most 500; and no record is both an entry and undone. *)
Theorem server_log_in_order s :
  reachable stringify s →
  DrawingState.ids_ascending (DrawingState.operations (drawingState s)) ∧
  NoDup (DrawingState.op_id <$> DrawingState.operations (drawingState s)) ∧
  Forall draw_record
    (DrawingState.operations (drawingState s)
       ++ DrawingState.redoStack (drawingState s)) ∧
  (length (DrawingState.operations (drawingState s))
   + length (DrawingState.redoStack (drawingState s)) ≤ 500)%nat ∧
  (∀ op, op ∈ DrawingState.operations (drawingState s) →
         op ∉ DrawingState.redoStack (drawingState s)).
Proof.
  intros Hs. pose proof (server_log_plain s Hs) as Hplain.
  pose proof (reachable_plain_ascending _ Hplain) as Hasc.
  split_and!.
  - done.
  - by apply ids_ascending_NoDup.
  - pose proof (server_log_draws s Hs) as Hd. unfold DrawingState.timeline in Hd.
    apply Forall_app in Hd as [Hd1 Hd2]. apply Forall_app. split; [done|].
    apply Forall_forall. intros x Hx. rewrite Forall_forall in Hd2.
    apply Hd2. by apply elem_of_reverse.
  - pose proof (reachable_total_length _ (reachable_plain_reachable _ Hplain)) as Hl.
    simpl in Hl. rewrite (reachable_maxOperations stringify s Hs) in Hl. lia.
  - intros op Hop Hre.
    destruct (reachable_allocation_order _ (reachable_plain_reachable _ Hplain))
      as [Hsorted _].
    apply elem_of_reverse in Hre.
    pose proof (StronglySorted_app_1_elem_of _ _ _ _ _ Hsorted Hop Hre) as Hlt.
    unfold DrawingState.addr_lt in Hlt. lia.
Qed.

End server_log.

Section server_sessions.
Import Server.
Variable stringify : Message → string.
Implicit Types (s : Server.t) (us : list (string * User)).

Lemma nth_userId_inj (n n' : Z) : nth_userId n = nth_userId n' → n = n'.
Proof.
  unfold nth_userId. intros E. apply (inj (String.app "user_")) in E.
  by apply (inj pretty) in E.
Qed.

Lemma on_message_frame now userId parsed s :
  let s' := (on_message stringify now userId parsed s).2 in
  users s' = users s ∧ userIdCounter s' = userIdCounter s ∧
  colorIndex s' = colorIndex s.
Proof.
  destruct parsed as [data|]; [|done].
  pose proof (on_message_cases stringify now userId data s) as H.
  cbv zeta in H.
  destruct H as [[_ E]|[[_ E]|[[_ E]|[[_ E]|[[_ E]|[_ E]]]]]]; rewrite E.
  - unfold handleDraw. by rewrite addOperation_unfold.
  - done.
  - unfold handleUndo. by destruct (DrawingState.undo _) as [[?|?] ?].
  - unfold handleRedo. by destruct (DrawingState.redo _) as [[?|?] ?].
  - done.
  - done.
Qed.

Lemma registered_mono s s' entry :
  userIdCounter s ≤ userIdCounter s' → registered s entry → registered s' entry.
Proof.
  intros Hle (Hid & n & Hn & Hk & Hc). split; [done|].
  exists n. split_and!; [lia..|done|done].
Qed.

Lemma sessions_fresh s :
  sessions_ok s → JsMap.get (nth_userId (userIdCounter s + 1)) (users s) = None.
Proof.
  intros (_ & _ & _ & Hreg). apply get_None_keys.
  intros ([k u] & Hk & Hin)%list_elem_of_fmap. simpl in Hk.
  rewrite Forall_forall in Hreg. destruct (Hreg _ Hin) as (_ & n & Hn & Hkn & _).
  simpl in Hkn. rewrite Hkn in Hk. apply nth_userId_inj in Hk. lia.
Qed.

Lemma on_connection_users sock i j k s :
  sessions_ok s →
  users (on_connection stringify sock i j k s).2
  = users s ++
    [(nth_userId (userIdCounter s + 1),
      {| id := nth_userId (userIdCounter s + 1);
         username := generateUsername i j k;
         color := nth_color (userIdCounter s + 1);
         ws := sock |})].
Proof.
  intros Hok. pose proof (sessions_fresh s Hok) as Hfresh.
  destruct Hok as (Hci & Hc0 & _). unfold on_connection. cbn.
  fold (nth_userId (userIdCounter s + 1)).
  rewrite set_absent by done. rewrite Hci.
  replace (userIdCounter s + 1 - 1) with (userIdCounter s) by lia.
  reflexivity.
Qed.

Lemma sessions_ok_step e s :
  sessions_ok s → sessions_ok (step stringify e s).2.
Proof.
  intros Hok. pose proof Hok as (Hci & Hc0 & Hnd & Hreg).
  destruct e as [sock i j k|now userId parsed|userId|userId st]; cbn [step snd].
  - pose proof (on_connection_users sock i j k s Hok) as Hus.
    pose proof (sessions_fresh s Hok) as Hfresh.
    assert (userIdCounter (on_connection stringify sock i j k s).2
            = userIdCounter s + 1) as Hc by done.
    assert (colorIndex (on_connection stringify sock i j k s).2
            = colorIndex s + 1) as Hi by done.
    unfold sessions_ok. rewrite Hus, Hc, Hi. split_and!; [lia|lia| |].
    + unfold JsMap.keys. rewrite fmap_app. apply NoDup_app.
      split_and!; [done| |apply NoDup_singleton].
      intros x Hx ->%list_elem_of_singleton. by apply get_None_keys in Hfresh.
    + apply Forall_app. split.
      * eapply Forall_impl; [exact Hreg|]. intros entry (Hid & n & Hn & Hk & Hcol).
        split; [done|]. exists n. rewrite Hc. split_and!; [lia..|done|done].
      * repeat constructor. exists (userIdCounter s + 1).
        rewrite Hc. split_and!; [lia..|done|done].
  - destruct (on_message_frame now userId parsed s) as (Hu & Hc & Hi).
    unfold sessions_ok. rewrite Hu, Hc, Hi. split_and!; try done.
    eapply Forall_impl; [exact Hreg|]. intros entry. apply registered_mono. lia.
  - unfold sessions_ok. simpl. split_and!; [done|done| |].
    + by apply NoDup_keys_delete.
    + unfold JsMap.delete.
      eapply Forall_sublist; [apply sublist_filter|done].
  - unfold socket_state. destruct (JsMap.get userId (users s)) as [user|] eqn:E;
      [|done].
    unfold sessions_ok. simpl. split_and!; [done|done| |].
    + by apply NoDup_keys_set.
    + apply Forall_forall. intros [k' u'] [[= -> ->]|Hin]%elem_of_set.
      * apply get_elem_of in E. rewrite Forall_forall in Hreg.
        apply (Hreg _ E).
      * rewrite Forall_forall in Hreg. apply (Hreg _ Hin).
Qed.

Lemma reachable_sessions_ok s : reachable stringify s → sessions_ok s.
Proof.
  induction 1 as [h|e s _ IH]; [|by apply sessions_ok_step].
  split_and!; [done|done|constructor|constructor].
Qed.

(** Sessions get ids of their own.  In a running server no session id is
    registered twice; every session is filed under its own id, which is
    "user_n" for the number n of its connection, and has the n-th colour
    of the palette taken in rounds of 15.  A new connection is added after
    the sessions there are, as "user_" and the next number, and replaces
    none of them. *)
Theorem sessions_have_own_ids s :
  reachable stringify s →
  NoDup (JsMap.keys (users s)) ∧
  Forall (registered s) (users s) ∧
  ∀ sock i j k,
    users (on_connection stringify sock i j k s).2
    = users s ++
      [(nth_userId (userIdCounter s + 1),
        {| id := nth_userId (userIdCounter s + 1);
           username := generateUsername i j k;
           color := nth_color (userIdCounter s + 1);
           ws := sock |})].
Proof.
  intros Hs. pose proof (reachable_sessions_ok s Hs) as Hok.
  split_and!; [apply Hok|apply Hok|].
  intros sock i j k. by apply on_connection_users.
Qed.

End server_sessions.

Section server_traffic.
Import Server.
Variable stringify : Message → string.
Implicit Types (s : Server.t) (us : list (string * User)).

Lemma sendToUser_registered userId (user : User) (message : Message) s :
  JsMap.get userId (users s) = Some user →
  sendToUser stringify userId message s
  = if decide (readyState (ws user) = OPEN)
    then [Stringify message; Send (ws_id (ws user)) (stringify message)]
    else [].
Proof.
  intros E. unfold sendToUser. rewrite E.
  destruct (decide _); [by rewrite bool_decide_eq_true_2|
                        by rewrite bool_decide_eq_false_2].
Qed.

Lemma roster_app us us' : roster (us ++ us') = roster us ++ roster us'.
Proof. unfold roster, JsMap.values. by rewrite !fmap_app. Qed.

(** The effects of [on_connection], sorted out. *)
Lemma on_connection_effects sock i j k s :
  reachable stringify s →
  let r := on_connection stringify sock i j k s in
  let n := userIdCounter s + 1 in
  let entry := {| r_id := nth_userId n;
                  r_username := generateUsername i j k;
                  r_color := nth_color n |} in
  let joined := UserJoined (nth_userId n) (nth_color n) (generateUsername i j k)
                  (roster (users s) ++ [entry]) in
  let entries := DrawingState.operations (drawingState s) in
  let to_new (message : Message) : list (Effect Message) :=
    if decide (readyState sock = OPEN)
    then [Stringify message; Send (ws_id sock) (stringify message)]
    else [] in
  r.1 = to_new joined
        ++ match entries with [] => [] | _ :: _ => to_new (StateSync entries) end
        ++ Stringify joined ::
           ((λ sock', Send (ws_id sock') (stringify joined))
              <$> recipients None (users s)).
Proof.
  intros Hs r n entry joined entries to_new.
  pose proof (reachable_sessions_ok stringify s Hs) as Hok.
  pose proof (on_connection_users stringify sock i j k s Hok) as Hus.
  pose proof (sessions_fresh s Hok) as Hfresh.
  destruct Hok as (Hci & _).
  set (user := {| id := nth_userId n; username := generateUsername i j k;
                  color := nth_color n; ws := sock |}) in *.
  set (s2 := (on_connection stringify sock i j k s).2) in *.
  assert (r.1 = sendToUser stringify (nth_userId n) joined s2
                ++ (if bool_decide (0 < length entries)%nat
                    then sendToUser stringify (nth_userId n) (StateSync entries) s2
                    else [])
                ++ broadcast stringify joined (Some (nth_userId n)) s2) as ->.
  { assert (roster (users s2) = roster (users s) ++ [entry]) as Hros.
    { by rewrite Hus, roster_app. }
    assert (nth (Z.to_nat (colorIndex s `mod` Z.of_nat (length userColors)))
              userColors EmptyString = nth_color n) as Hcol.
    { unfold nth_color, n. rewrite Hci.
      by replace (userIdCounter s + 1 - 1) with (userIdCounter s) by lia. }
    unfold joined. rewrite <- Hros, <- Hcol. reflexivity. }
  assert (JsMap.get (nth_userId n) (users s2) = Some user) as Hget.
  { rewrite Hus. fold n. fold user. rewrite <- (set_absent _ user) by done.
    apply get_set_eq. }
  rewrite !(sendToUser_registered _ user) by done.
  rewrite broadcast_delivers, recipients_exclude, Hus. fold n. fold user.
  rewrite <- (set_absent _ user) by done.
  rewrite delete_set_absent by done.
  f_equal. f_equal. by destruct entries.
Qed.


(** What a closed connection causes.  The session is no longer registered;
    the others are, in their order.  Every remaining session with an open
    transport is sent the user-left event with the roster of the
    remaining sessions, in which the closed one does not appear.  When no
    session had that id, the sessions stay as they are and the event is
    sent all the same. *)
Theorem close_traffic userId s :
  reachable stringify s →
  let r := on_close stringify userId s in
  users r.2 = JsMap.delete userId (users s) ∧
  JsMap.get userId (users r.2) = None ∧
  (∀ k, k ≠ userId → JsMap.get k (users r.2) = JsMap.get k (users s)) ∧
  Forall (λ e, r_id e ≠ userId) (roster (users r.2)) ∧
  r.1 = Stringify (UserLeft userId (roster (users r.2))) ::
        ((λ sock, Send (ws_id sock)
                    (stringify (UserLeft userId (roster (users r.2)))))
           <$> recipients None (users r.2)) ∧
  (JsMap.get userId (users s) = None → users r.2 = users s) ∧
  drawingState r.2 = drawingState s.
Proof.
  intros Hs r. unfold r, on_close. cbn [fst snd users with_users drawingState].
  pose proof (reachable_sessions_ok stringify s Hs) as (_ & _ & _ & Hreg).
  split_and!; [done|apply get_delete_eq| | |by rewrite broadcast_delivers| |done].
  - intros k Hk. by apply get_delete_ne.
  - unfold roster, JsMap.values. rewrite <- list_fmap_compose.
    apply Forall_fmap, Forall_forall. intros [k u] Hin. simpl.
    unfold JsMap.delete in Hin. apply list_elem_of_filter in Hin as [Hk Hin].
    rewrite Forall_forall in Hreg. destruct (Hreg _ Hin) as [Hid _].
    simpl in *. by rewrite Hid.
  - intros Hnone. by apply delete_absent.
Qed.

Lemma broadcast_targets (message : Message) exclude s (w : nat) (d : string) :
  Send w d ∈ broadcast stringify message exclude s →
  ∃ k user, (k, user) ∈ users s ∧ ws_id (ws user) = w ∧
            readyState (ws user) = OPEN.
Proof.
  rewrite broadcast_delivers. intros [[=]|Hin]%elem_of_cons.
  apply list_elem_of_fmap in Hin as (sock & [= -> ->] & Hin).
  apply elem_of_server_recipients in Hin as (k & user & Hin & _ & <- & Hopen).
  by exists k, user.
Qed.

Lemma sendToUser_targets userId (message : Message) s (w : nat) (d : string) :
  Send w d ∈ sendToUser stringify userId message s →
  ∃ k user, (k, user) ∈ users s ∧ ws_id (ws user) = w ∧
            readyState (ws user) = OPEN.
Proof.
  unfold sendToUser. destruct (JsMap.get userId (users s)) as [user|] eqn:E;
    [|by intros ?%elem_of_nil].
  case_bool_decide as Hopen; [|by intros ?%elem_of_nil].
  intros [[=]|[[= -> ->]|?%elem_of_nil]%elem_of_cons]%elem_of_cons; [|done].
  exists userId, user. split_and!; [by apply get_elem_of|done|done].
Qed.

(** Whatever the event and the state, the server writes only to sockets
    of sessions that are registered after the event and whose transport
    is in the open state. *)
Theorem sends_only_to_open_sessions e s (w : nat) (d : string) :
  Send w d ∈ (step stringify e s).1 →
  ∃ k user, (k, user) ∈ users (step stringify e s).2 ∧
            ws_id (ws user) = w ∧ readyState (ws user) = OPEN.
Proof.
  destruct e as [sock i j k|now userId parsed|userId|userId st]; cbn [step fst snd].
  - unfold on_connection. cbn -[sendToUser broadcast JsMap.set roster pretty].
    rewrite !elem_of_app. intros [H|[H|H]].
    + by apply sendToUser_targets in H.
    + case_bool_decide; [|by apply elem_of_nil in H].
      by apply sendToUser_targets in H.
    + by apply broadcast_targets in H.
  - destruct parsed as [data|]; [|by intros ?%elem_of_nil].
    pose proof (on_message_cases stringify now userId data s) as H.
    cbv zeta in H.
    destruct H as [[_ E]|[[_ E]|[[_ E]|[[_ E]|[[_ E]|[_ E]]]]]]; rewrite E.
    + unfold handleDraw. rewrite addOperation_unfold. cbn [fst snd].
      apply broadcast_targets.
    + apply broadcast_targets.
    + rewrite handleUndo_spec.
      destruct (DrawingState.operations _); [by intros ?%elem_of_nil|].
      apply broadcast_targets.
    + rewrite handleRedo_spec.
      destruct (DrawingState.redoStack _); [by intros ?%elem_of_nil|].
      apply broadcast_targets.
    + apply broadcast_targets.
    + by intros ?%elem_of_nil.
  - apply broadcast_targets.
  - by intros ?%elem_of_nil.
Qed.

End server_traffic.

(** ** The handler on sample servers *)

Lemma drawn_sessions_reachable : Server.reachable tag drawn_sessions.
Proof.
  apply (Server.reachable_step tag
           (Server.Incoming 5 "user_1" (Some draw_message))).
  apply two_sessions_reachable.
Qed.

Lemma one_closed_reachable : Server.reachable tag one_closed.
Proof.
  apply (Server.reachable_step tag (Server.SocketState "user_2" 3)).
  apply drawn_sessions_reachable.
Qed.

Lemma unhandled_messages_ignored_witness :
  Server.on_message tag 6 "user_1" (Some ping_request) drawn_sessions
  = ([], drawn_sessions) ∧
  Server.on_message tag 6 "user_1" None drawn_sessions = ([], drawn_sessions).
Proof.
  split.
  - apply (unhandled_messages_ignored tag 6 "user_1" (Some ping_request)).
    intros ty [= <-] Hin. unfold Server.handled_types in Hin.
    repeat (apply elem_of_cons in Hin as [Hin|Hin]; [discriminate Hin|]).
    by apply elem_of_nil in Hin.
  - by apply (unhandled_messages_ignored tag 6 "user_1" None).
Defined.

Lemma undo_redo_messages_witness :
  (Server.on_message tag 6 "user_2" (Some undo_request) drawn_sessions).1
  = [Stringify (Server.Undo []); Send 1 "undo"; Send 2 "undo"] ∧
  Server.on_message tag 6 "user_2" (Some undo_request) two_sessions
  = ([], two_sessions).
Proof.
  destruct (undo_redo_messages tag 6 "user_2" undo_request drawn_sessions)
    as [H1 _].
  destruct (undo_redo_messages tag 6 "user_2" undo_request two_sessions)
    as [H2 _].
  split.
  - destruct (H1 eq_refl) as [_ E]. rewrite E. by vm_compute.
  - exact (H2 eq_refl).
Defined.

Lemma clear_message_witness :
  (Server.on_message tag 6 "user_2" (Some clear_request) drawn_sessions).1
  = [Stringify Server.Clear; Send 1 "clear"; Send 2 "clear"] ∧
  DrawingState.operationIdCounter
    (Server.drawingState
       (Server.on_message tag 6 "user_2" (Some clear_request) drawn_sessions).2)
  = 1.
Proof.
  destruct (clear_message tag 6 "user_2" clear_request drawn_sessions eq_refl)
    as (_ & _ & Hc & _ & E & _).
  split.
  - rewrite E. by vm_compute.
  - rewrite Hc. by vm_compute.
Defined.

Lemma server_log_in_order_witness :
  DrawingState.op_id <$> DrawingState.operations (Server.drawingState drawn_sessions)
  = [VNum 1] ∧
  DrawingState.ids_ascending
    (DrawingState.operations (Server.drawingState drawn_sessions)) ∧
  Forall Server.draw_record
    (DrawingState.operations (Server.drawingState drawn_sessions)
       ++ DrawingState.redoStack (Server.drawingState drawn_sessions)).
Proof.
  destruct (server_log_in_order tag drawn_sessions drawn_sessions_reachable)
    as (Hasc & _ & Hd & _).
  split_and!; [by vm_compute|exact Hasc|exact Hd].
Defined.

Lemma sessions_have_own_ids_witness :
  JsMap.keys (Server.users drawn_sessions) = ["user_1"; "user_2"] ∧
  NoDup (JsMap.keys (Server.users drawn_sessions)) ∧
  JsMap.keys
    (Server.users
       (Server.on_connection tag (sock 3 1) 2 2 9 drawn_sessions).2)
  = ["user_1"; "user_2"; "user_3"].
Proof.
  destruct (sessions_have_own_ids tag drawn_sessions drawn_sessions_reachable)
    as (Hnd & _ & Hnew).
  split_and!; [by vm_compute|exact Hnd|].
  rewrite Hnew. by vm_compute.
Defined.


Lemma close_traffic_witness :
  JsMap.keys (Server.users (Server.on_close tag "user_1" one_closed).2)
  = ["user_2"] ∧
  (Server.on_close tag "user_1" one_closed).1
  = [Stringify
       (Server.UserLeft "user_1"
          (Server.roster
             (Server.users (Server.on_close tag "user_1" one_closed).2)))] ∧
  (Server.on_close tag "user_2" one_closed).1
  = [Stringify
       (Server.UserLeft "user_2"
          (Server.roster
             (Server.users (Server.on_close tag "user_2" one_closed).2)));
     Send 1 "user-left"].
Proof.
  destruct (close_traffic tag "user_1" one_closed one_closed_reachable)
    as (_ & _ & _ & _ & E1 & _).
  destruct (close_traffic tag "user_2" one_closed one_closed_reachable)
    as (_ & _ & _ & _ & E2 & _).
  split_and!; [by vm_compute|rewrite E1; by vm_compute|rewrite E2; by vm_compute].
Defined.

Lemma sends_only_to_open_sessions_witness :
  Send 1 "undo"
  ∈ (Server.step tag (Server.Incoming 6 "user_2" (Some undo_request))
       one_closed).1 ∧
  ∃ k user,
    (k, user)
    ∈ Server.users
        (Server.step tag (Server.Incoming 6 "user_2" (Some undo_request))
           one_closed).2 ∧
    ws_id (Server.ws user) = 1%nat ∧ readyState (Server.ws user) = OPEN.
Proof.
  assert (Send 1 "undo"
          ∈ (Server.step tag (Server.Incoming 6 "user_2" (Some undo_request))
               one_closed).1) as Hin.
  { vm_compute. right. left. }
  split; [exact Hin|].
  exact (sends_only_to_open_sessions tag _ _ _ _ Hin).
Defined.

(** * Properties of the client *)

Section client_connection.
Import Client.
Implicit Types (c : Connection) (events : list ConnEvent).

Lemma conn_run_cons e events c :
  conn_run (e :: events) c =
    ((conn_step e c).1 ++ (conn_run events (conn_step e c).2).1,
     (conn_run events (conn_step e c).2).2).
Proof.
  cbn [conn_run]. destruct (conn_step e c) as [effects c1]. cbn [fst snd].
  destruct (conn_run events c1); reflexivity.
Qed.

Lemma conn_step_spec e c :
  is_opened e = false →
  let r := conn_step e c in
  let k := if is_closed e && (reconnectAttempts c <? maxReconnectAttempts c)
           then 1%nat else 0%nat in
  length (filter (λ e, is_timeout e = true) r.1) = k ∧
  reconnectAttempts r.2 = reconnectAttempts c + Z.of_nat k ∧
  maxReconnectAttempts r.2 = maxReconnectAttempts c ∧
  reconnectDelay r.2 = reconnectDelay c ∧
  Forall (λ e, is_timeout e = true → e = SetTimeout (reconnectDelay c)) r.1.
Proof.
  intros He. destruct c as [sock a m d].
  destruct e as [| |[]]; [done|..];
    unfold conn_step, onclose, attemptReconnect, connect; cbn;
    [destruct (a <? m); cbn|..];
    (split_and!; [reflexivity|lia|reflexivity|reflexivity|]);
    repeat (constructor; [by intros ?|]); constructor.
Qed.

Lemma conn_run_bounded events : ∀ c,
  Forall (λ e, is_opened e = false) events →
  0 ≤ reconnectAttempts c ≤ maxReconnectAttempts c →
  let r := conn_run events c in
  let left := Z.to_nat (maxReconnectAttempts c - reconnectAttempts c) in
  let closes := length (filter (λ e, is_closed e = true) events) in
  length (filter (λ e, is_timeout e = true) r.1) = (closes `min` left)%nat ∧
  reconnectAttempts r.2
  = reconnectAttempts c + Z.of_nat (closes `min` left) ∧
  maxReconnectAttempts r.2 = maxReconnectAttempts c ∧
  reconnectDelay r.2 = reconnectDelay c ∧
  Forall (λ e, is_timeout e = true → e = SetTimeout (reconnectDelay c)) r.1.
Proof.
  induction events as [|e events IH]; intros c Hno Hc.
  - simpl. split_and!; [done|lia|done|done|constructor].
  - apply Forall_cons in Hno as [He Hno]. rewrite conn_run_cons.
    destruct (conn_step_spec e c He) as (Ht & Ha & Hm & Hd & Hall).
    cbn zeta in Ht, Ha.
    assert (0 ≤ reconnectAttempts (conn_step e c).2
              ≤ maxReconnectAttempts (conn_step e c).2) as Hc'.
    { rewrite Ha, Hm.
      destruct (is_closed e); [|cbn; lia].
      destruct (Z.ltb_spec (reconnectAttempts c) (maxReconnectAttempts c));
        cbn; lia. }
    destruct (IH (conn_step e c).2 Hno Hc') as (Ht' & Ha' & Hm' & Hd' & Hall').
    cbn zeta in Ht', Ha'. cbn [fst snd].
    rewrite filter_app, length_app, Ht, Ht', Ha', Hm', Hd', Ha, Hm, Hd.
    rewrite Hd in Hall'. rewrite filter_cons.
    split_and!; [| |done|done|by apply Forall_app].
    + destruct (is_closed e) eqn:Hcl.
      * rewrite decide_True by done.
        destruct (Z.ltb_spec (reconnectAttempts c) (maxReconnectAttempts c));
          cbn [andb length]; lia.
      * rewrite decide_False by done. cbn [andb]. lia.
    + destruct (is_closed e) eqn:Hcl.
      * rewrite decide_True by done.
        destruct (Z.ltb_spec (reconnectAttempts c) (maxReconnectAttempts c));
          cbn [andb length]; lia.
      * rewrite decide_False by done. cbn [andb]. lia.
Qed.

(** Reconnection gives up after five attempts.  From a connection that is
    new or has just opened (no attempt counted), through any closes and
    timer firings without an open in between, the timers scheduled are as
    many as the closes but at most 5, each with the delay 3000; the
    attempts counted are that number.  An open sets the count back to 0. *)
Theorem reconnect_gives_up events c :
  Forall (λ e, is_opened e = false) events →
  reconnectAttempts c = 0 →
  maxReconnectAttempts c = 5 →
  reconnectDelay c = 3000 →
  let r := conn_run events c in
  let closes := length (filter (λ e, is_closed e = true) events) in
  length (filter (λ e, is_timeout e = true) r.1) = (closes `min` 5)%nat ∧
  Forall (λ e, is_timeout e = true → e = SetTimeout 3000) r.1 ∧
  reconnectAttempts r.2 = Z.of_nat (closes `min` 5) ∧
  reconnectAttempts (onopen r.2).2 = 0 ∧
  maxReconnectAttempts (onopen r.2).2 = 5 ∧
  reconnectDelay (onopen r.2).2 = 3000.
Proof.
  intros Hno Ha Hm Hd.
  destruct (conn_run_bounded events c Hno) as (Ht & Ha' & Hm' & Hd' & Hall);
    [lia|].
  rewrite Hm, Ha in Ht, Ha'. rewrite Hd in Hd', Hall. rewrite Hm in Hm'.
  change (Z.to_nat (5 - 0)) with 5%nat in *.
  split_and!; [done|done|lia|done|exact Hm'|exact Hd'].
Qed.

End client_connection.

Lemma reconnect_gives_up_witness :
  length (filter (λ e, Client.is_timeout e = true)
            (Client.conn_run seven_closes open_connection).1) = 5%nat ∧
  Client.reconnectAttempts (Client.conn_run seven_closes open_connection).2 = 5.
Proof.
  destruct (reconnect_gives_up seven_closes open_connection)
    as (Ht & _ & Ha & _); [|reflexivity..|].
  { unfold seven_closes. by repeat constructor. }
  split; [rewrite Ht|rewrite Ha]; reflexivity.
Defined.

Section client_cursors.
Import Client.
Implicit Types (m : Cursors) (entries : list (string * Cursor)).

Lemma get_app_absent (k : string) (c : Cursor) before after :
  k ∉ JsMap.keys before →
  JsMap.get k (before ++ (k, c) :: after) = Some c.
Proof.
  unfold JsMap.keys. induction before as [|[k' c'] before IH]; simpl.
  - intros _. by rewrite decide_True.
  - intros [Hne Hin]%not_elem_of_cons. rewrite decide_False by done.
    by apply IH.
Qed.

Lemma delete_app_only (k : string) (c : Cursor) before after :
  k ∉ JsMap.keys before → k ∉ JsMap.keys after →
  JsMap.delete k (before ++ (k, c) :: after) = before ++ after.
Proof.
  intros Hb Ha. unfold JsMap.delete.
  rewrite filter_app, filter_cons, decide_False by (simpl; auto).
  rewrite !filter_all; [done|..]; apply Forall_forall; intros [k' c'] Hin Hk;
    simpl in Hk; subst k'; [apply Ha|apply Hb];
    unfold JsMap.keys; apply list_elem_of_fmap; by exists (k, c').
Qed.

Lemma remove_where_spec (stale : Cursor → bool) next entries : ∀ before,
  NoDup (JsMap.keys (before ++ entries)) →
  remove_where stale entries
    {| cursors := before ++ entries; next_element := next |}
  = ((λ e, RemoveElement (element e.2))
       <$> filter (λ e, stale e.2 = true) entries,
     {| cursors := before ++ filter (λ e, stale e.2 = false) entries;
        next_element := next |}).
Proof.
  induction entries as [|[id c] entries IH]; intros before Hnd.
  - reflexivity.
  - assert ((id ∉ JsMap.keys before) ∧ (id ∉ JsMap.keys entries)) as [Hb Ha].
    { unfold JsMap.keys in *. rewrite fmap_app, fmap_cons in Hnd.
      apply NoDup_app in Hnd as (_ & Hdis & [Hid _]%NoDup_cons).
      split; [|done]. intros Hin. apply (Hdis _ Hin). by left. }
    cbn [remove_where]. rewrite !filter_cons. cbn [snd].
    destruct (stale c) eqn:Hst.
    + unfold removeCursor. cbn [cursors next_element].
      rewrite get_app_absent by done. rewrite delete_app_only by done.
      rewrite IH.
      * rewrite decide_True by done. rewrite decide_False by done.
        reflexivity.
      * unfold JsMap.keys in *. rewrite fmap_app, fmap_cons in Hnd.
        rewrite fmap_app. apply NoDup_app in Hnd as (Hn1 & Hdis & [_ Hn2]%NoDup_cons).
        apply NoDup_app. split_and!; [done| |done].
        intros x Hx Hx'. apply (Hdis _ Hx). by right.
    + rewrite decide_False by done. rewrite decide_True by done.
      replace (before ++ (id, c) :: entries)
        with ((before ++ [(id, c)]) ++ entries) in * by by rewrite <- app_assoc.
      rewrite IH by done. by rewrite <- app_assoc.
Qed.

(** Stale cursors are removed, the others stay.  When no user has two
    cursors, [removeInactiveCursors] keeps exactly the cursors whose last
    update is at most the timeout (5000 when none is given) before now,
    in their order, removes the DOM element of each of the others once,
    in their order, and creates no element. *)
Theorem removeInactiveCursors_keeps_recent now timeoutMs m :
  NoDup (JsMap.keys (cursors m)) →
  let limit := default 5000 timeoutMs in
  let r := removeInactiveCursors now timeoutMs m in
  cursors r.2 = filter (λ e, now - lastUpdate e.2 ≤ limit) (cursors m) ∧
  r.1 = (λ e, RemoveElement (element e.2))
          <$> filter (λ e, limit < now - lastUpdate e.2) (cursors m) ∧
  next_element r.2 = next_element m.
Proof.
  intros Hnd limit r. unfold r, removeInactiveCursors. destruct m as [cs next].
  cbn [cursors next_element] in *.
  rewrite (remove_where_spec _ next cs []) by done. cbn [fst snd cursors
    next_element app]. fold limit.
  split_and!; [|f_equal|done].
  - apply list_filter_iff. intros [id c]. cbn [snd].
    rewrite bool_decide_eq_false. lia.
  - apply list_filter_iff. intros [id c]. cbn [snd].
    by rewrite bool_decide_eq_true.
Qed.

End client_cursors.

Lemma removeInactiveCursors_keeps_recent_witness :
  JsMap.keys
    (Client.cursors (Client.removeInactiveCursors 7500 None three_cursors).2)
  = ["user_2"] ∧
  (Client.removeInactiveCursors 7500 None three_cursors).1
  = [Client.RemoveElement 0; Client.RemoveElement 2].
Proof.
  destruct (removeInactiveCursors_keeps_recent 7500 None three_cursors)
    as (Hc & He & _).
  { apply (bool_decide_unpack _). by vm_compute. }
  rewrite Hc, He. split; reflexivity.
Defined.

Section client_canvas.
Import Client.
Context {P : Type}.
Implicit Types (c : Canvas P) (events : list (CanvasEvent P)).


Lemma canvas_run_cons (e : CanvasEvent P) events c :
  canvas_run (e :: events) c =
    ((canvas_step e c).1 ++ (canvas_run events (canvas_step e c).2).1,
     (canvas_run events (canvas_step e c).2).2).
Proof.
  cbn [canvas_run]. destruct (canvas_step e c) as [effects c1]. cbn [fst snd].
  destruct (canvas_run events c1); reflexivity.
Qed.





(** Cursor positions are not throttled while nothing is drawn.  With the
    button up and a cursor callback registered, every mouse move whose
    clock reading is at least the throttle delay after [lastEmitTime]
    reports its position, however close the moves are to one another, and
    the canvas stays as it was: a cursor report does not move
    [lastEmitTime]. *)
Theorem idle_cursor_moves_all_reported (moves : list (P * Z)) c :
  isDrawing c = false →
  onCursorMoveCallback c = true →
  Forall (λ m, throttleDelay c ≤ m.2 - lastEmitTime c) moves →
  canvas_run ((λ m, MouseMove m.1 m.2) <$> moves) c
  = ((λ m, CursorMoved m.1) <$> moves, c).
Proof.
  intros Hup Hcb. induction moves as [|[pt now] moves IH]; intros Hall.
  - reflexivity.
  - apply Forall_cons in Hall as [Hdue Hall]. cbn [snd fst] in Hdue.
    rewrite fmap_cons, canvas_run_cons. cbn [canvas_step fst snd].
    unfold handleMouseMove. rewrite Hup, Hcb, bool_decide_eq_true_2 by done.
    cbn [negb andb fst snd]. by rewrite IH.
Qed.

End client_canvas.

Lemma idle_cursor_moves_all_reported_witness :
  Client.canvas_run
    [Client.MouseMove 1%nat 100; Client.MouseMove 2%nat 101;
     Client.MouseMove 3%nat 102] idle_canvas
  = ([Client.CursorMoved 1%nat; Client.CursorMoved 2%nat;
      Client.CursorMoved 3%nat], idle_canvas).
Proof.
  apply (idle_cursor_moves_all_reported [(1%nat, 100); (2%nat, 101); (3%nat, 102)]
           idle_canvas); [reflexivity|reflexivity|].
  repeat constructor; vm_compute; discriminate.
Defined.

Section client_identity.
Import Server.
Variable stringify : Message → string.
Implicit Types (s : Server.t) (p : Client.Protocol).

(** A client takes the id of every user who joins as its own.  When a
    connection arrives at a running server, every session that was there
    and has an open transport is sent the user-joined message with the
    newcomer's id, which is not that session's id.  A client that handles
    the message has the newcomer's id as its [userId], whatever it was
    before: from then on it drops the draw and cursor messages of the
    newcomer and passes on the draw messages that carry the session's own
    id. *)
Theorem joined_id_replaces_own sock i j k s key (user : User) p :
  reachable stringify s →
  (key, user) ∈ users s →
  readyState (ws user) = OPEN →
  let r := on_connection stringify sock i j k s in
  let n := userIdCounter s + 1 in
  let entry := {| r_id := nth_userId n;
                  r_username := generateUsername i j k;
                  r_color := nth_color n |} in
  let joined := UserJoined (nth_userId n) (nth_color n) (generateUsername i j k)
                  (roster (users s) ++ [entry]) in
  let p' := (Client.handle joined p).2 in
  Send (ws_id (ws user)) (stringify joined) ∈ r.1 ∧
  key ≠ nth_userId n ∧
  Client.userId p' = Some (nth_userId n) ∧
  (∀ d, (Client.handle (Draw (nth_userId n) d) p').1 = []) ∧
  (∀ x y, (Client.handle (Cursor (nth_userId n) x y) p').1 = []) ∧
  (∀ d, (Client.handle (Draw key d) p').1
        = [Client.Callback "draw" (Draw key d)]).
Proof.
  intros Hs Hin Hopen r n entry joined p'.
  pose proof (reachable_sessions_ok stringify s Hs) as Hok.
  assert (key ≠ nth_userId n) as Hne.
  { intros ->. pose proof (sessions_fresh s Hok) as Hfresh.
    apply get_None_keys in Hfresh. apply Hfresh.
    unfold JsMap.keys. apply list_elem_of_fmap. by exists (nth_userId n, user). }
  split_and!; [|done|done|..].
  - unfold r. rewrite on_connection_effects by done.
    rewrite !elem_of_app. right. right. right.
    apply list_elem_of_fmap. exists (ws user). split; [done|].
    apply elem_of_server_recipients. by exists key, user.
  - intros d. cbn. by rewrite bool_decide_eq_false_2 by (by intros ?).
  - intros x y. cbn. by rewrite bool_decide_eq_false_2 by (by intros ?).
  - intros d. cbn. rewrite bool_decide_eq_true_2; [done|]. by intros [= ?].
Qed.

End client_identity.

Lemma joined_id_replaces_own_witness :
  Send 1 "user-joined" ∈ (Server.on_connection tag (sock 3 1) 2 2 9 one_closed).1 ∧
  ∀ d, (Client.handle (Server.Draw "user_1" d)
          (Client.handle
             (Server.UserJoined "user_3" "#2ecc71" "ArtisticCreator9"
                (Server.roster (Server.users one_closed)
                   ++ [ {| Server.r_id := "user_3";
                           Server.r_username := "ArtisticCreator9";
                           Server.r_color := "#2ecc71" |} ]))
             {| Client.userId := Some "user_1"; Client.users := [] |}).2).1
       = [Client.Callback "draw" (Server.Draw "user_1" d)].
Proof.
  destruct (joined_id_replaces_own tag (sock 3 1) 2 2 9 one_closed "user_1"
              {| Server.id := "user_1"; Server.username := "HappyArtist42";
                 Server.color := "#e74c3c"; Server.ws := sock 1 1 |}
              {| Client.userId := Some "user_1"; Client.users := [] |}
              one_closed_reachable)
    as (Hsend & _ & _ & _ & _ & Hdraw).
  - vm_compute. left.
  - reflexivity.
  - split; [exact Hsend|exact Hdraw].
Defined.
